(** * Waypoint updater: a shallow embedding of [waypoint_updater.py]

    The node keeps the latest pose, the base lane, the stop-line index and a
    KD-tree over the 2D coordinates of the base lane.  Every tick it looks up
    the closest waypoint, slices [LOOKAHEAD_WPS] waypoints from the base lane
    and, if a stop line lies inside that slice, replaces the slice by freshly
    allocated waypoints carrying a deceleration profile.

    Modelling decisions.
    - Python floats are idealised as real numbers ([R]); [math.sqrt] is
      [sqrt].  Integers (indices, [Int32] payloads) are [Z].  The theorems
      on speeds and distances state orders, bounds and which terms are
      summed; identities that rounding breaks (a sum regrouped, the square
      of a square root) are not stated of the code.
    - ROS messages are Python objects.  Waypoint and pose objects live in a
      heap indexed by locations, a lane is a list of waypoint locations, and
      [p.pose = wp.pose] copies a reference.  Headers, orientations of
      twists and the other message fields the node never reads are left out.
    - Python exceptions are the [Raise] outcome of the [result] monad.
    - [scipy.spatial.KDTree] is outside the repository: its constructor and
      its [query] method are parameters of the development.
    - The header of [generate_lane] lacks its colon in the source; the
      method is read as the [def] it is meant to be. *)

From Stdlib Require Import Reals Lra ZArith Lia.
From stdpp Require Import base option list gmap.

(** ** Exceptions *)

Inductive exn : Set :=
  | IndexError
  | ZeroDivisionError
  | ValueError
  | AttributeError
  | TypeError.

Inductive result (A : Type) : Type :=
  | Ok (a : A)
  | Raise (e : exn).
Arguments Ok {A} a.
Arguments Raise {A} e.

(** Sequencing: the first exception raised aborts what follows. *)
#[global] Instance result_bind : MBind result := λ A B k m,
  match m with
  | Ok a => k a
  | Raise e => Raise e
  end.
#[global] Instance result_ret : MRet result := λ A a, Ok a.

(** ** Python lists: indexing, slicing, [range] *)

Section PyList.
Context {A : Type}.

(** [l[i]]: a negative index counts from the end, an index outside
    [-len .. len-1] raises [IndexError]. *)
Definition py_index (l : list A) (i : Z) : result A :=
  let n := Z.of_nat (length l) in
  let j := if (i <? 0)%Z then (i + n)%Z else i in
  if (j <? 0)%Z then Raise IndexError
  else match l !! Z.to_nat j with
       | Some a => Ok a
       | None => Raise IndexError
       end.

(** How a slice bound is clamped into [0 .. len]. *)
Definition py_clamp (n i : Z) : Z :=
  if (i <? 0)%Z then Z.max (i + n) 0 else Z.min i n.

(** [l[a:b]]. *)
Definition py_slice (l : list A) (a b : Z) : list A :=
  let n := Z.of_nat (length l) in
  let a' := py_clamp n a in
  let b' := py_clamp n b in
  take (Z.to_nat (b' - a')) (drop (Z.to_nat a') l).
End PyList.

(** [range(a, b)]. *)
Definition py_range (a b : Z) : list Z :=
  (λ k : nat, (a + Z.of_nat k)%Z) <$> seq 0 (Z.to_nat (b - a)).

(** [min(a, b)] of Python: the first argument unless the second is
    strictly smaller. *)
Definition py_min (a b : R) : R :=
  if Rlt_dec b a then b else a.

(** ** Messages and the object heap *)

Record Point := { p_x : R; p_y : R; p_z : R }.
Record Quaternion := { q_x : R; q_y : R; q_z : R; q_w : R }.
Record Pose := { position : Point; orientation : Quaternion }.

(** [geometry_msgs/PoseStamped], without its header. *)
Record PoseStamped := { ps_pose : Pose }.

Definition loc := positive.

(** [styx_msgs/Waypoint]: a reference to its pose object and the one field
    of its twist that the node uses, [twist.twist.linear.x]. *)
Record Waypoint := { wp_pose : loc; twist_linear_x : R }.

Record Heap := {
  waypoint_objs : gmap loc Waypoint;
  pose_objs : gmap loc PoseStamped
}.

Definition origin : Point := {| p_x := 0; p_y := 0; p_z := 0 |}.

#[global] Instance Waypoint_inhabited : Inhabited Waypoint :=
  populate {| wp_pose := 1%positive; twist_linear_x := 0 |}.
#[global] Instance PoseStamped_inhabited : Inhabited PoseStamped :=
  populate {| ps_pose := {| position := origin;
                            orientation := {| q_x := 0; q_y := 0; q_z := 0; q_w := 0 |} |} |}.

(** Reading fields through references.  Python has no dangling reference;
    a location outside the heap reads as the default object. *)
Definition waypoint_at (h : Heap) (w : loc) : Waypoint := waypoint_objs h !!! w.
Definition pose_of (h : Heap) (w : loc) : PoseStamped :=
  pose_objs h !!! wp_pose (waypoint_at h w).
(** [w.pose.pose.position] *)
Definition position_of (h : Heap) (w : loc) : Point := position (ps_pose (pose_of h w)).
(** [w.twist.twist.linear.x] *)
Definition velocity_of (h : Heap) (w : loc) : R := twist_linear_x (waypoint_at h w).

(** [Waypoint()] followed by the two assignments of [decelerate_waypoints]:
    a new waypoint object at an unused location. *)
Definition new_waypoint (h : Heap) (w : Waypoint) : loc * Heap :=
  let p := fresh (dom (waypoint_objs h)) in
  (p, {| waypoint_objs := <[p := w]> (waypoint_objs h); pose_objs := pose_objs h |}).

(** Every waypoint of a lane is an object of the heap. *)
Definition lane_in_heap (h : Heap) (ws : list loc) : Prop :=
  Forall (λ w, w ∈ dom (waypoint_objs h)) ws.

(** ** Constants *)

Definition LOOKAHEAD_WPS : Z := 200.
Definition MAX_DECEL : R := (1 / 2)%R.

(** ** [WaypointUpdater.distance] *)

(** The lambda [dl]. *)
Definition dl (a b : Point) : R :=
  sqrt ((p_x a - p_x b) ^ 2 + (p_y a - p_y b) ^ 2 + (p_z a - p_z b) ^ 2).

(** The [for] loop of [distance]; [wp1] and [dist] are the two variables it
    updates. *)
Fixpoint distance_loop (h : Heap) (waypoints : list loc) (idxs : list Z)
    (wp1 : Z) (dist : R) : result R :=
  match idxs with
  | [] => Ok dist
  | i :: idxs' =>
      a ← py_index waypoints wp1 ;
      b ← py_index waypoints i ;
      distance_loop h waypoints idxs' i (dist + dl (position_of h a) (position_of h b))
  end.

Definition distance (h : Heap) (waypoints : list loc) (wp1 wp2 : Z) : result R :=
  distance_loop h waypoints (py_range wp1 (wp2 + 1)) wp1 0.

(** ** [WaypointUpdater.decelerate_waypoints] *)

(** The velocity computed for one waypoint from its distance to the stop. *)
Definition stop_velocity (dist : R) : R :=
  let vel := sqrt (2 * MAX_DECEL * dist) in
  if Rlt_dec vel 1 then 0%R else vel.

(** [stop_idx] of the loop body. *)
Definition stop_index (stopline_wp_idx closest_idx : Z) : Z :=
  Z.max (stopline_wp_idx - closest_idx - 2) 0.

(** The loop over [enumerate(waypoints)], from position [i] on; [todo] are
    the waypoints still to visit and [decelerated_waypoints] the list built
    so far. *)
Fixpoint decelerate_loop (stopline_wp_idx closest_idx : Z) (waypoints : list loc)
    (i : Z) (todo : list loc) (h : Heap) (decelerated_waypoints : list loc)
    : result (Heap * list loc) :=
  match todo with
  | [] => Ok (h, decelerated_waypoints)
  | wp :: todo' =>
      let stop_idx := stop_index stopline_wp_idx closest_idx in
      dist ← distance h waypoints i stop_idx ;
      let vel := stop_velocity dist in
      let '(p, h') :=
        new_waypoint h {| wp_pose := wp_pose (waypoint_at h wp);
                          twist_linear_x := py_min vel (velocity_of h wp) |} in
      decelerate_loop stopline_wp_idx closest_idx waypoints (i + 1) todo' h'
        (decelerated_waypoints ++ [p])
  end.

Definition decelerate_waypoints (stopline_wp_idx : Z) (h : Heap)
    (waypoints : list loc) (closest_idx : Z) : result (Heap * list loc) :=
  decelerate_loop stopline_wp_idx closest_idx waypoints 0 waypoints h [].

(** ** The node *)

(** What a published [Lane] carries for each waypoint: its pose and its
    target speed, read from the heap when the message is sent. *)
Definition published (h : Heap) (waypoints : list loc) : list (PoseStamped * R) :=
  (λ w, (pose_of h w, velocity_of h w)) <$> waypoints.

(** The speeds of a list of waypoints. *)
Definition velocities (h : Heap) (waypoints : list loc) : list R :=
  velocity_of h <$> waypoints.

(** Attribute access on a field that may still be [None]. *)
Definition attr {A} (o : option A) : result A :=
  match o with
  | Some a => Ok a
  | None => Raise AttributeError
  end.

(** Subscripting a field that may still be [None]. *)
Definition subscriptable {A} (o : option A) : result A :=
  match o with
  | Some a => Ok a
  | None => Raise TypeError
  end.

(** Truth value of a field holding [None] or a list. *)
Definition list_truthy {A} (o : option (list A)) : bool :=
  match o with
  | Some (_ :: _) => true
  | _ => false
  end.

(** [[[w.pose.pose.position.x, w.pose.pose.position.y] for w in waypoints]] *)
Definition coordinates_2d (h : Heap) (waypoints : list loc) : list (R * R) :=
  (λ w, (p_x (position_of h w), p_y (position_of h w))) <$> waypoints.

Section Node.
(** [scipy.spatial.KDTree]: the type of trees, the constructor (which may
    raise) and the index component of [tree.query(point, 1)]. *)
Context {tree : Type}.
Variable KDTree : list (R * R) → result tree.
Variable query : tree → R * R → Z.

(** The fields of [WaypointUpdater]. *)
Record State := {
  pose : option PoseStamped;
  base_lane : option (list loc);
  stopline_wp_idx : Z;
  waypoints_2d : option (list (R * R));
  waypoint_tree : option tree
}.

(** The fields as [__init__] leaves them. *)
Definition init : State :=
  {| pose := None; base_lane := None; stopline_wp_idx := -1;
     waypoints_2d := None; waypoint_tree := None |}.

Definition pose_cb (st : State) (msg : PoseStamped) : State :=
  {| pose := Some msg; base_lane := base_lane st;
     stopline_wp_idx := stopline_wp_idx st;
     waypoints_2d := waypoints_2d st; waypoint_tree := waypoint_tree st |}.

Definition traffic_cb (st : State) (data : Z) : State :=
  {| pose := pose st; base_lane := base_lane st;
     stopline_wp_idx := data;
     waypoints_2d := waypoints_2d st; waypoint_tree := waypoint_tree st |}.

Definition obstacle_cb (st : State) (msg : Z) : State := st.

(** [waypoints_cb]: the new state and how the callback ends.  When the
    constructor raises, the two assignments before it have taken place. *)
Definition waypoints_cb (st : State) (h : Heap) (waypoints : list loc)
    : State * result unit :=
  if list_truthy (waypoints_2d st) then
    ({| pose := pose st; base_lane := Some waypoints;
        stopline_wp_idx := stopline_wp_idx st;
        waypoints_2d := waypoints_2d st; waypoint_tree := waypoint_tree st |},
     Ok ())
  else
    let w2d := coordinates_2d h waypoints in
    match KDTree w2d with
    | Ok t =>
        ({| pose := pose st; base_lane := Some waypoints;
            stopline_wp_idx := stopline_wp_idx st;
            waypoints_2d := Some w2d; waypoint_tree := Some t |},
         Ok ())
    | Raise e =>
        ({| pose := pose st; base_lane := Some waypoints;
            stopline_wp_idx := stopline_wp_idx st;
            waypoints_2d := Some w2d; waypoint_tree := waypoint_tree st |},
         Raise e)
    end.

(** [np.dot(cl_vect - prev_vect, pos_vect - cl_vect)] with [cl_vect] a
    scalar that broadcasts against the two-element arrays. *)
Definition dot_broadcast (cl_vect : R) (prev_vect pos_vect : R * R) : R :=
  ((cl_vect - prev_vect.1) * (pos_vect.1 - cl_vect)
   + (cl_vect - prev_vect.2) * (pos_vect.2 - cl_vect))%R.

Definition get_closest_waypoint_idx (st : State) : result Z :=
  msg ← attr (pose st) ;
  let x := p_x (position (ps_pose msg)) in
  let y := p_y (position (ps_pose msg)) in
  t ← attr (waypoint_tree st) ;
  let closest_idx := query t (x, y) in
  w2d ← subscriptable (waypoints_2d st) ;
  closest_coord ← py_index w2d closest_idx ;
  prev_coord ← py_index w2d (closest_idx - 1) ;
  let cl_vect := IZR closest_idx in
  let prev_vect := prev_coord in
  let pos_vect := (x, y) in
  let val := dot_broadcast cl_vect prev_vect pos_vect in
  if Rlt_dec 0 val then
    if (Z.of_nat (length w2d) =? 0)%Z then Raise ZeroDivisionError
    else Ok ((closest_idx + 1) `mod` Z.of_nat (length w2d))%Z
  else Ok closest_idx.

(** [base_lane_waypoints] of [generate_lane]. *)
Definition base_lane_waypoints (lane : list loc) (closest_idx : Z) : list loc :=
  py_slice lane closest_idx (closest_idx + LOOKAHEAD_WPS).

(** [generate_lane]: the heap after the call and the waypoints of the
    lane it returns. *)
Definition generate_lane (st : State) (h : Heap) : result (Heap * list loc) :=
  closest_idx ← get_closest_waypoint_idx st ;
  let farthest_idx := (closest_idx + LOOKAHEAD_WPS)%Z in
  lane ← attr (base_lane st) ;
  let base_lane_waypoints := base_lane_waypoints lane closest_idx in
  if ((stopline_wp_idx st =? -1) || (farthest_idx <=? stopline_wp_idx st))%Z then
    Ok (h, base_lane_waypoints)
  else
    decelerate_waypoints (stopline_wp_idx st) h base_lane_waypoints closest_idx.

(** [publish_waypoint]: the heap after the call and the message sent. *)
Definition publish_waypoint (st : State) (h : Heap) (closest_idx : Z)
    : result (Heap * list (PoseStamped * R)) :=
  '(h', lane) ← generate_lane st h ;
  Ok (h', published h' lane).

(** The test that guards the body of [loop]. *)
Definition ready (st : State) : bool :=
  bool_decide (is_Some (pose st)) && bool_decide (is_Some (base_lane st))
  && bool_decide (is_Some (waypoint_tree st)).

(** One round of the [while] of [loop]: the heap afterwards and the
    message published in this round, if any. *)
Definition loop_body (st : State) (h : Heap)
    : result (Heap * option (list (PoseStamped * R))) :=
  if ready st then
    closest_waypoint_idx ← get_closest_waypoint_idx st ;
    '(h', msg) ← publish_waypoint st h closest_waypoint_idx ;
    Ok (h', Some msg)
  else Ok (h, None).

(** What reaches the node between two rounds of [loop]. *)
Inductive event :=
  | PoseMsg (msg : PoseStamped)
  | TrafficMsg (data : Z)
  | ObstacleMsg (msg : Z).

Definition handle (st : State) (ev : event) : State :=
  match ev with
  | PoseMsg msg => pose_cb st msg
  | TrafficMsg data => traffic_cb st data
  | ObstacleMsg msg => obstacle_cb st msg
  end.

(** ** The nearest-point locator as the specification words it *)

(** The dot product of [(C - prev)] with [(P - C)]. *)
Definition dot_2d (C prev P : R * R) : R :=
  ((C.1 - prev.1) * (P.1 - C.1) + (C.2 - prev.2) * (P.2 - C.2))%R.

(** [locate] of the specification: [c] from the spatial index, then
    [(c + 1) mod N] when the dot product is positive, [c] otherwise. *)
Definition spec_locate (st : State) : result Z :=
  msg ← attr (pose st) ;
  let P := (p_x (position (ps_pose msg)), p_y (position (ps_pose msg))) in
  t ← attr (waypoint_tree st) ;
  let c := query t P in
  w2d ← subscriptable (waypoints_2d st) ;
  C ← py_index w2d c ;
  prev ← py_index w2d (c - 1) ;
  if Rlt_dec 0 (dot_2d C prev P) then
    if (Z.of_nat (length w2d) =? 0)%Z then Raise ZeroDivisionError
    else Ok ((c + 1) `mod` Z.of_nat (length w2d))%Z
  else Ok c.
End Node.

Arguments State : clear implicits.
Arguments init {tree}.

(** ** Arc length along a window *)

(** The sum of the straight-line distances between consecutive points. *)
Fixpoint path_length (pts : list Point) : R :=
  match pts with
  | a :: (b :: _) as rest => (dl a b + path_length rest)%R
  | _ => 0%R
  end.

(** Arc length along [waypoints] from position [i] to position [j]; it is
    [0] when [j <= i]. *)
Definition arc_length (h : Heap) (waypoints : list loc) (i j : nat) : R :=
  path_length (position_of h <$> take (j + 1 - i) (drop i waypoints)).

(** The speed [decelerate_waypoints] gives the waypoint at position [i] of
    the window, in terms of the arc length from [i] to the stop position. *)
Definition decelerated_velocity (h : Heap) (waypoints : list loc)
    (stop_idx : Z) (i : nat) (wp : loc) : R :=
  py_min (stop_velocity (arc_length h waypoints i (Z.to_nat stop_idx)))
         (velocity_of h wp).

(** The object [decelerate_waypoints] creates for position [i]: it shares
    the pose object of [wp]. *)
Definition decelerated_waypoint (h : Heap) (waypoints : list loc)
    (stop_idx : Z) (i : nat) (wp : loc) : Waypoint :=
  {| wp_pose := wp_pose (waypoint_at h wp);
     twist_linear_x := decelerated_velocity h waypoints stop_idx i wp |}.

(** [h'] has every object of [h], unchanged; it may have more waypoint
    objects. *)
Definition heap_extends (h h' : Heap) : Prop :=
  pose_objs h' = pose_objs h ∧
  ∀ l, l ∈ dom (waypoint_objs h) → waypoint_objs h' !! l = waypoint_objs h !! l.

(** ** A KD-tree by linear scan

    An implementation of the two parameters of the node, used to run it on
    concrete inputs.  Like the constructor of scipy it raises [ValueError]
    on an empty list of points; [query] returns the first index at the
    least distance. *)

Definition sq_dist (a b : R * R) : R :=
  ((a.1 - b.1) ^ 2 + (a.2 - b.2) ^ 2)%R.

Fixpoint scan_nearest (q : R * R) (pts : list (R * R)) (i best : Z) (best_d : R) : Z :=
  match pts with
  | [] => best
  | p :: pts' =>
      if Rlt_dec (sq_dist p q) best_d
      then scan_nearest q pts' (i + 1) i (sq_dist p q)
      else scan_nearest q pts' (i + 1) best best_d
  end.

Definition scan_KDTree (data : list (R * R)) : result (list (R * R)) :=
  match data with
  | [] => Raise ValueError
  | _ :: _ => Ok data
  end.

Definition scan_query (t : list (R * R)) (q : R * R) : Z :=
  match t with
  | [] => 0
  | p :: pts => scan_nearest q pts 1 0 (sq_dist p q)
  end.

(** ** Concrete tracks *)

Definition pose_at (x y zc : R) : PoseStamped :=
  {| ps_pose := {| position := {| p_x := x; p_y := y; p_z := zc |};
                   orientation := {| q_x := 0; q_y := 0; q_z := 0; q_w := 1 |} |} |}.

(** Three waypoints on the x axis, at 0, 5 and 9, each with nominal speed
    10. *)
Definition track3_heap : Heap :=
  {| waypoint_objs :=
       <[1%positive := {| wp_pose := 1%positive; twist_linear_x := 10 |}]>
       (<[2%positive := {| wp_pose := 2%positive; twist_linear_x := 10 |}]>
       (<[3%positive := {| wp_pose := 3%positive; twist_linear_x := 10 |}]> ∅));
     pose_objs :=
       <[1%positive := pose_at 0 0 0]>
       (<[2%positive := pose_at 5 0 0]>
       (<[3%positive := pose_at 9 0 0]> ∅)) |}.

Definition track3 : list loc := [1%positive; 2%positive; 3%positive].

(** The node after it received [track3], then a pose at [(x, 0)], then a
    stop-line index. *)
Definition track3_state (x : R) (stopline : Z) : State (list (R * R)) :=
  traffic_cb
    (pose_cb (waypoints_cb scan_KDTree init track3_heap track3).1 (pose_at x 0 0))
    stopline.

(** A single waypoint at the origin whose nominal speed is negative. *)
Definition reverse_heap : Heap :=
  {| waypoint_objs := {[ 1%positive := {| wp_pose := 1%positive; twist_linear_x := -1 |} ]};
     pose_objs := {[ 1%positive := pose_at 0 0 0 ]} |}.

Definition reverse_track : list loc := [1%positive].

(** The node after it received [track3], then a route made of the first
    waypoint alone, then a pose at [(9, 0)]: the coordinate list and the
    tree are still those of [track3]. *)
Definition shortened_state : State (list (R * R)) :=
  pose_cb
    (waypoints_cb scan_KDTree
       (waypoints_cb scan_KDTree init track3_heap track3).1
       track3_heap [1%positive]).1
    (pose_at 9 0 0).


(** A constructor that raises on every list of points. *)
Definition failing_KDTree (data : list (R * R)) : result (list (R * R)) :=
  Raise ValueError.

(** ** [get_waypoint_velocity] and [set_waypoint_velocity] *)

Definition get_waypoint_velocity (h : Heap) (waypoint : loc) : R :=
  twist_linear_x (waypoint_at h waypoint).

(** The assignment [w.twist.twist.linear.x = velocity] on one object. *)
Definition assign_twist_linear_x (velocity : R) (w : Waypoint) : Waypoint :=
  {| wp_pose := wp_pose w; twist_linear_x := velocity |}.

(** [waypoints[waypoint].twist.twist.linear.x = velocity]: the subscript may
    raise; otherwise the object found is updated in place. *)
Definition set_waypoint_velocity (h : Heap) (waypoints : list loc)
    (waypoint : Z) (velocity : R) : result Heap :=
  w ← py_index waypoints waypoint ;
  Ok {| waypoint_objs := alter (assign_twist_linear_x velocity) w (waypoint_objs h);
        pose_objs := pose_objs h |}.

(** ** Runs of the node *)

Section Runs.
Context {tree : Type}.
Variable KDTree : list (R * R) → result tree.

(** A message reaching one of the four subscribers.  A route message
    comes with the heap that holds its waypoint objects. *)
Inductive delivery :=
  | Deliver (ev : event)
  | DeliverRoute (h : Heap) (waypoints : list loc).

(** The state after the callback of a message; an exception raised by
    [waypoints_cb] ends that callback and leaves the assignments made
    before it. *)
Definition deliver (st : State tree) (d : delivery) : State tree :=
  match d with
  | Deliver ev => handle st ev
  | DeliverRoute h waypoints => (waypoints_cb KDTree st h waypoints).1
  end.

(** The states the node can be in: those the callbacks make of the
    state of [__init__]. *)
Definition reachable (st : State tree) : Prop :=
  ∃ ds : list delivery, st = foldl deliver init ds.

(** The data of the last stop-line message among the events, if any. *)
Definition last_traffic (evs : list event) : option Z :=
  last (omap (λ ev, match ev with TrafficMsg data => Some data | _ => None end) evs).

(** The last pose message among the events, if any. *)
Definition last_pose (evs : list event) : option PoseStamped :=
  last (omap (λ ev, match ev with PoseMsg msg => Some msg | _ => None end) evs).
End Runs.

(** Decides the comparisons of reals met when the node runs on a concrete
    track. *)
Ltac decide_reals :=
  repeat match goal with
    | |- context [Rlt_dec ?a ?b] =>
        destruct (Rlt_dec a b);
        try (exfalso; unfold sq_dist, dot_broadcast, dot_2d in *; cbn in *; lra)
    end.

(** * Properties *)

(** ** Python lists *)

Lemma py_index_nat {A} (l : list A) (i : nat) (a : A) :
  l !! i = Some a → py_index l (Z.of_nat i) = Ok a.
Proof.
  intros Hi. unfold py_index.
  destruct (Z.ltb_spec (Z.of_nat i) 0) as [?|_]; [lia|].
  destruct (Z.ltb_spec (Z.of_nat i) 0) as [?|_]; [lia|].
  by rewrite Nat2Z.id, Hi.
Qed.

Lemma py_index_overflow {A} (l : list A) (i : Z) :
  (Z.of_nat (length l) ≤ i)%Z → py_index l i = Raise IndexError.
Proof.
  intros Hi. unfold py_index.
  destruct (Z.ltb_spec i 0) as [?|_]; [lia|].
  destruct (Z.ltb_spec i 0) as [?|_]; [lia|].
  rewrite (lookup_ge_None_2 l (Z.to_nat i)); [done | lia].
Qed.

Lemma py_index_elem {A} (l : list A) (i : Z) (a : A) :
  py_index l i = Ok a → a ∈ l.
Proof.
  unfold py_index. destruct (_ <? 0)%Z; [done|].
  destruct (l !! _) eqn:E; [|done].
  intros [= <-]. by eapply list_elem_of_lookup_2.
Qed.

Lemma py_range_empty (a b : Z) : (b ≤ a)%Z → py_range a b = [].
Proof.
  intros. unfold py_range. by replace (Z.to_nat (b - a)) with 0%nat by lia.
Qed.

Lemma py_slice_forward {A} (l : list A) (a k : Z) :
  (0 ≤ a)%Z → (0 ≤ k)%Z →
  py_slice l a (a + k) = take (Z.to_nat k) (drop (Z.to_nat a) l).
Proof.
  intros Ha Hk. unfold py_slice, py_clamp.
  destruct (Z.ltb_spec a 0) as [?|_]; [lia|].
  destruct (Z.ltb_spec (a + k) 0) as [?|_]; [lia|].
  destruct (Z.le_gt_cases (Z.of_nat (length l)) a) as [Hge|Hlt].
  - rewrite (Z.min_r a) by lia. rewrite (Z.min_r (a + k)) by lia.
    rewrite (drop_ge l (Z.to_nat a)) by lia.
    rewrite (drop_ge l (Z.to_nat (Z.of_nat (length l)))) by lia.
    by rewrite !take_nil.
  - rewrite (Z.min_l a) by lia.
    destruct (Z.le_gt_cases (a + k) (Z.of_nat (length l))).
    + rewrite (Z.min_l (a + k)) by lia. f_equal. lia.
    + rewrite (Z.min_r (a + k)) by lia.
      rewrite !take_ge; [done | |]; rewrite length_drop; lia.
Qed.

Lemma py_min_Rmin (a b : R) : py_min a b = Rmin a b.
Proof.
  unfold py_min, Rmin.
  destruct (Rlt_dec b a), (Rle_dec a b); lra.
Qed.

(** ** Distances and velocities *)

Lemma dl_same (p : Point) : dl p p = 0%R.
Proof.
  unfold dl.
  replace ((p_x p - p_x p) ^ 2 + (p_y p - p_y p) ^ 2 + (p_z p - p_z p) ^ 2)%R
    with 0%R by ring.
  apply sqrt_0.
Qed.

Lemma dl_nonneg (a b : Point) : (0 <= dl a b)%R.
Proof. apply sqrt_pos. Qed.

Lemma dl_on_x_axis (x1 x2 : R) :
  dl {| p_x := x1; p_y := 0; p_z := 0 |} {| p_x := x2; p_y := 0; p_z := 0 |}
  = Rabs (x1 - x2).
Proof.
  unfold dl. simpl p_x. simpl p_y. simpl p_z.
  replace ((x1 - x2) ^ 2 + (0 - 0) ^ 2 + (0 - 0) ^ 2)%R with (Rsqr (x1 - x2))
    by (unfold Rsqr; ring).
  apply sqrt_Rsqr_abs.
Qed.

Lemma path_length_nonneg (pts : list Point) : (0 <= path_length pts)%R.
Proof.
  induction pts as [|a [|b rest] IH]; simpl; try lra.
  pose proof (dl_nonneg a b). simpl in IH. lra.
Qed.

Lemma stop_velocity_0 : stop_velocity 0 = 0%R.
Proof.
  unfold stop_velocity. replace (2 * MAX_DECEL * 0)%R with 0%R by ring.
  rewrite sqrt_0. destruct (Rlt_dec 0 1); lra.
Qed.

Lemma stop_velocity_le (dist : R) :
  (stop_velocity dist <= sqrt (2 * MAX_DECEL * dist))%R.
Proof.
  unfold stop_velocity. destruct (Rlt_dec _ 1); [apply sqrt_pos | lra].
Qed.

Lemma stop_velocity_snap (dist : R) :
  (sqrt (2 * MAX_DECEL * dist) < 1)%R → stop_velocity dist = 0%R.
Proof. intros. unfold stop_velocity. by destruct (Rlt_dec _ 1). Qed.

Lemma stop_velocity_keep (dist : R) :
  (1 <= sqrt (2 * MAX_DECEL * dist))%R →
  stop_velocity dist = sqrt (2 * MAX_DECEL * dist).
Proof. intros. unfold stop_velocity. destruct (Rlt_dec _ 1); [lra | done]. Qed.

(** On a square the deceleration formula gives back the root. *)
Lemma stop_velocity_square (v : R) :
  (1 <= v)%R → stop_velocity (v * v) = v.
Proof.
  intros Hv.
  assert (sqrt (2 * MAX_DECEL * (v * v)) = v) as E.
  { unfold MAX_DECEL. replace (2 * (1 / 2) * (v * v))%R with (v * v)%R by field.
    apply sqrt_square. lra. }
  rewrite stop_velocity_keep; rewrite E; [done | lra].
Qed.

(** ** The loop of [distance] *)

Lemma py_range_nat (a b : nat) :
  py_range (Z.of_nat a) (Z.of_nat b) = Z.of_nat <$> seq a (b - a).
Proof.
  unfold py_range.
  replace (Z.to_nat (Z.of_nat b - Z.of_nat a)) with (b - a)%nat by lia.
  replace (seq a (b - a)) with (Nat.add a <$> seq 0 (b - a))
    by (rewrite fmap_add_seq; f_equal; lia).
  rewrite <- list_fmap_compose. apply list_fmap_ext.
  intros _ k _. simpl. lia.
Qed.

Lemma distance_loop_ext (h1 h2 : Heap) (waypoints : list loc) (idxs : list Z)
    (wp1 : Z) (dist : R) :
  (∀ w, w ∈ waypoints → position_of h1 w = position_of h2 w) →
  distance_loop h1 waypoints idxs wp1 dist = distance_loop h2 waypoints idxs wp1 dist.
Proof.
  intros Hpos. revert wp1 dist.
  induction idxs as [|i idxs IH]; intros wp1 dist; [done|].
  cbn [distance_loop].
  destruct (py_index waypoints wp1) as [a|e] eqn:Ea; [|done].
  destruct (py_index waypoints i) as [b|e] eqn:Eb; [|done].
  cbn. rewrite (Hpos a), (Hpos b) by (by eapply py_index_elem). apply IH.
Qed.

Lemma distance_loop_run (h : Heap) (waypoints : list loc) (n k j : nat)
    (dist : R) (a : loc) :
  waypoints !! j = Some a → k + n ≤ length waypoints →
  distance_loop h waypoints (Z.of_nat <$> seq k n) (Z.of_nat j) dist
  = Ok (dist + path_length (position_of h <$> a :: take n (drop k waypoints)))%R.
Proof.
  revert k j dist a.
  induction n as [|n IH]; intros k j dist a Hj Hk.
  - rewrite take_0. cbn. f_equal. lra.
  - destruct (lookup_lt_is_Some_2 waypoints k) as [b Hb]; [lia|].
    cbn [seq fmap list_fmap distance_loop].
    rewrite (py_index_nat _ _ _ Hj), (py_index_nat _ _ _ Hb). cbn [mbind result_bind].
    rewrite (IH (S k) k _ b Hb) by lia.
    rewrite (drop_S _ _ _ Hb). rewrite firstn_cons.
    cbn [fmap list_fmap path_length]. f_equal. lra.
Qed.

Lemma distance_loop_overflow (h : Heap) (waypoints : list loc) (n k j : nat)
    (dist : R) :
  j < length waypoints → k ≤ length waypoints → length waypoints < k + n →
  distance_loop h waypoints (Z.of_nat <$> seq k n) (Z.of_nat j) dist
  = Raise IndexError.
Proof.
  revert k j dist.
  induction n as [|n IH]; intros k j dist Hj Hk Hn; [lia|].
  destruct (lookup_lt_is_Some_2 waypoints j) as [a Ha]; [lia|].
  cbn [seq fmap list_fmap distance_loop].
  rewrite (py_index_nat _ _ _ Ha). cbn [mbind result_bind].
  destruct (decide (k = length waypoints)) as [->|Hne].
  - by rewrite py_index_overflow by lia.
  - destruct (lookup_lt_is_Some_2 waypoints k) as [b Hb]; [lia|].
    rewrite (py_index_nat _ _ _ Hb). cbn [mbind result_bind].
    apply IH; lia.
Qed.

(** [distance] returns the arc length from [wp1] to [wp2] along the list,
    and [0] when [wp2 < wp1]. *)
Lemma distance_arc_length (h : Heap) (waypoints : list loc) (i s : nat) :
  s < length waypoints →
  distance h waypoints (Z.of_nat i) (Z.of_nat s) = Ok (arc_length h waypoints i s).
Proof.
  intros Hs. unfold distance, arc_length.
  replace (Z.of_nat s + 1)%Z with (Z.of_nat (s + 1)) by lia.
  rewrite py_range_nat.
  destruct (decide (i ≤ s)) as [Hi|Hi].
  - destruct (lookup_lt_is_Some_2 waypoints i) as [a Ha]; [lia|].
    rewrite (distance_loop_run h _ _ _ _ _ a Ha) by lia.
    replace (s + 1 - i) with (S (s - i)) by lia.
    rewrite (drop_S _ _ _ Ha). rewrite firstn_cons.
    cbn [fmap list_fmap path_length]. rewrite dl_same. f_equal. lra.
  - by replace (s + 1 - i) with 0 by lia.
Qed.

Lemma distance_past_stop (h : Heap) (waypoints : list loc) (i s : Z) :
  (s < i)%Z → distance h waypoints i s = Ok 0%R.
Proof. intros. unfold distance. by rewrite py_range_empty by lia. Qed.

Lemma distance_overflow (h : Heap) (waypoints : list loc) (i s : nat) :
  i < length waypoints → length waypoints ≤ s →
  distance h waypoints (Z.of_nat i) (Z.of_nat s) = Raise IndexError.
Proof.
  intros Hi Hs. unfold distance.
  replace (Z.of_nat s + 1)%Z with (Z.of_nat (s + 1)) by lia.
  rewrite py_range_nat. apply distance_loop_overflow; lia.
Qed.

Lemma arc_length_at_or_past_stop (h : Heap) (waypoints : list loc) (i s : nat) :
  s ≤ i → arc_length h waypoints i s = 0%R.
Proof.
  intros Hi. unfold arc_length.
  destruct (decide (s = i)) as [->|Hne].
  - replace (i + 1 - i) with 1 by lia.
    by destruct (drop i waypoints) as [|a [|b rest]].
  - by replace (s + 1 - i) with 0 by lia.
Qed.

Lemma arc_length_nonneg (h : Heap) (waypoints : list loc) (i s : nat) :
  (0 <= arc_length h waypoints i s)%R.
Proof. apply path_length_nonneg. Qed.

(** ** The heap *)

Lemma heap_extends_refl (h : Heap) : heap_extends h h.
Proof. by split. Qed.

Lemma heap_extends_dom (h h' : Heap) (l : loc) :
  heap_extends h h' → l ∈ dom (waypoint_objs h) → l ∈ dom (waypoint_objs h').
Proof.
  intros [_ Hw] Hl. apply elem_of_dom. rewrite (Hw l Hl). by apply elem_of_dom.
Qed.

Lemma heap_extends_trans (h1 h2 h3 : Heap) :
  heap_extends h1 h2 → heap_extends h2 h3 → heap_extends h1 h3.
Proof.
  intros H12 H23. split.
  - destruct H12 as [E12 _], H23 as [E23 _]. by rewrite E23.
  - intros l Hl. destruct H23 as [_ H23]. rewrite H23.
    + destruct H12 as [_ H12]. by apply H12.
    + by eapply heap_extends_dom.
Qed.

Lemma new_waypoint_fresh (h : Heap) (w : Waypoint) :
  (new_waypoint h w).1 ∉ dom (waypoint_objs h).
Proof. apply is_fresh. Qed.

Lemma new_waypoint_lookup (h : Heap) (w : Waypoint) :
  waypoint_objs (new_waypoint h w).2 !! (new_waypoint h w).1 = Some w.
Proof. apply lookup_insert_eq. Qed.

Lemma new_waypoint_extends (h : Heap) (w : Waypoint) :
  heap_extends h (new_waypoint h w).2.
Proof.
  split; [done|]. intros l Hl. cbn.
  apply lookup_insert_ne. intros <-. by apply (new_waypoint_fresh h w).
Qed.

Lemma heap_extends_waypoint_at (h h' : Heap) (w : loc) :
  heap_extends h h' → w ∈ dom (waypoint_objs h) → waypoint_at h' w = waypoint_at h w.
Proof.
  intros [_ Hw] Hl. unfold waypoint_at. rewrite !lookup_total_alt. by rewrite Hw.
Qed.

Lemma heap_extends_velocity_of (h h' : Heap) (w : loc) :
  heap_extends h h' → w ∈ dom (waypoint_objs h) → velocity_of h' w = velocity_of h w.
Proof. intros. unfold velocity_of. by rewrite (heap_extends_waypoint_at h h'). Qed.

Lemma heap_extends_pose_of (h h' : Heap) (w : loc) :
  heap_extends h h' → w ∈ dom (waypoint_objs h) → pose_of h' w = pose_of h w.
Proof.
  intros Hext Hl. unfold pose_of.
  rewrite (heap_extends_waypoint_at h h') by done.
  destruct Hext as [E _]. by rewrite E.
Qed.

Lemma heap_extends_position_of (h h' : Heap) (w : loc) :
  heap_extends h h' → w ∈ dom (waypoint_objs h) → position_of h' w = position_of h w.
Proof. intros. unfold position_of. by rewrite (heap_extends_pose_of h h'). Qed.

Lemma heap_extends_distance (h h' : Heap) (waypoints : list loc) (wp1 wp2 : Z) :
  heap_extends h h' → lane_in_heap h waypoints →
  distance h' waypoints wp1 wp2 = distance h waypoints wp1 wp2.
Proof.
  intros Hext Hin. apply distance_loop_ext. intros w Hw.
  apply heap_extends_position_of; [done|].
  unfold lane_in_heap in Hin. rewrite Forall_forall in Hin. by apply Hin.
Qed.

Lemma heap_extends_velocities (h h' : Heap) (waypoints : list loc) :
  heap_extends h h' → lane_in_heap h waypoints →
  velocities h' waypoints = velocities h waypoints.
Proof.
  intros Hext Hin. unfold velocities. apply list_fmap_ext.
  intros i w Hw. apply heap_extends_velocity_of; [done|].
  unfold lane_in_heap in Hin. rewrite Forall_forall in Hin.
  apply Hin. by eapply list_elem_of_lookup_2.
Qed.

Lemma heap_extends_published (h h' : Heap) (waypoints : list loc) :
  heap_extends h h' → lane_in_heap h waypoints →
  published h' waypoints = published h waypoints.
Proof.
  intros Hext Hin. unfold published. apply list_fmap_ext.
  intros i w Hw.
  assert (w ∈ dom (waypoint_objs h)) as Hd.
  { unfold lane_in_heap in Hin. rewrite Forall_forall in Hin.
    apply Hin. by eapply list_elem_of_lookup_2. }
  by rewrite (heap_extends_pose_of h h'), (heap_extends_velocity_of h h').
Qed.

Lemma lane_in_heap_slice (h : Heap) (lane : list loc) (a b : Z) :
  lane_in_heap h lane → lane_in_heap h (py_slice lane a b).
Proof.
  unfold lane_in_heap, py_slice. intros Hin.
  by apply Forall_take, Forall_drop.
Qed.

(** ** The loop of [decelerate_waypoints] *)

Lemma stop_index_nonneg (s c : Z) : (0 ≤ stop_index s c)%Z.
Proof. unfold stop_index. lia. Qed.

Lemma distance_to_stop (h : Heap) (waypoints : list loc) (i : nat) (s : Z) :
  (0 ≤ s)%Z → Z.to_nat s < length waypoints →
  distance h waypoints (Z.of_nat i) s
  = Ok (arc_length h waypoints i (Z.to_nat s)).
Proof.
  intros Hs Hlt. rewrite <- distance_arc_length by done.
  by rewrite Z2Nat.id.
Qed.

Lemma decelerate_loop_spec (s c : Z) (h : Heap) (waypoints : list loc) :
  lane_in_heap h waypoints →
  Z.to_nat (stop_index s c) < length waypoints →
  ∀ (todo : list loc) (k : nat) (hk : Heap) (acc : list loc),
    heap_extends h hk → drop k waypoints = todo →
    length acc = k → k ≤ length waypoints →
    (∀ j p, acc !! j = Some p →
       (p ∉ dom (waypoint_objs h)) ∧
       ∃ wp, waypoints !! j = Some wp ∧
             waypoint_objs hk !! p
             = Some (decelerated_waypoint h waypoints (stop_index s c) j wp)) →
    ∃ h' out,
      decelerate_loop s c waypoints (Z.of_nat k) todo hk acc = Ok (h', out) ∧
      heap_extends h h' ∧ length out = length waypoints ∧
      (∀ j p, out !! j = Some p →
         (p ∉ dom (waypoint_objs h)) ∧
         ∃ wp, waypoints !! j = Some wp ∧
               waypoint_objs h' !! p
               = Some (decelerated_waypoint h waypoints (stop_index s c) j wp)).
Proof.
  intros Hin Hstop todo.
  induction todo as [|wp todo IH]; intros k hk acc Hext Hdrop Hlen Hk Hacc.
  - exists hk, acc. split; [done|]. split; [done|]. split; [|done].
    assert (length (drop k waypoints) = 0) as E by (by rewrite Hdrop).
    rewrite length_drop in E. lia.
  - assert (waypoints !! k = Some wp) as Hwp.
    { rewrite <- (Nat.add_0_r k), <- lookup_drop, Hdrop. done. }
    assert (wp ∈ dom (waypoint_objs h)) as Hdom.
    { unfold lane_in_heap in Hin. rewrite Forall_forall in Hin.
      apply Hin. by eapply list_elem_of_lookup_2. }
    assert (k < length waypoints) as Hlt by by eapply lookup_lt_Some.
    cbn [decelerate_loop].
    rewrite (heap_extends_distance h hk) by done.
    cbv zeta.
    rewrite distance_to_stop by (done || apply stop_index_nonneg).
    cbn [mbind result_bind].
    rewrite (heap_extends_waypoint_at h hk), (heap_extends_velocity_of h hk) by done.
    change {| wp_pose := wp_pose (waypoint_at h wp);
              twist_linear_x :=
                py_min (stop_velocity (arc_length h waypoints k (Z.to_nat (stop_index s c))))
                       (velocity_of h wp) |}
      with (decelerated_waypoint h waypoints (stop_index s c) k wp).
    set (w' := decelerated_waypoint h waypoints (stop_index s c) k wp).
    pose proof (new_waypoint_fresh hk w') as Hfresh.
    pose proof (new_waypoint_lookup hk w') as Hnew.
    pose proof (new_waypoint_extends hk w') as Hext'.
    destruct (new_waypoint hk w') as [p hk'] eqn:E. cbn [fst snd] in *.
    replace (Z.of_nat k + 1)%Z with (Z.of_nat (S k)) by lia.
    apply IH.
    + by eapply heap_extends_trans.
    + by rewrite (drop_S _ _ _ Hwp) in Hdrop; injection Hdrop.
    + rewrite length_app. cbn. lia.
    + lia.
    + intros j q Hq.
      destruct (decide (j < k)) as [Hj|Hj].
      * rewrite lookup_app_l in Hq by lia.
        destruct (Hacc j q Hq) as (Hqf & wq & Hwq & Hlook).
        split; [done|]. exists wq. split; [done|].
        destruct Hext' as [_ Hext']. rewrite Hext'; [done|].
        apply elem_of_dom. by rewrite Hlook.
      * rewrite lookup_app_r in Hq by lia.
        assert (j = k) as ->.
        { apply lookup_lt_Some in Hq. cbn in Hq. lia. }
        replace (k - length acc) with 0 in Hq by lia. injection Hq as <-.
        split.
        -- intros Hp. apply Hfresh. by eapply heap_extends_dom.
        -- by exists wp.
Qed.

(** [decelerate_waypoints] returns when the stop position lies in the
    window (or the window is empty), with one new object per waypoint. *)
Lemma decelerate_waypoints_spec (s c : Z) (h : Heap) (waypoints : list loc) :
  lane_in_heap h waypoints →
  waypoints = [] ∨ Z.to_nat (stop_index s c) < length waypoints →
  ∃ h' out,
    decelerate_waypoints s h waypoints c = Ok (h', out) ∧
    heap_extends h h' ∧ length out = length waypoints ∧
    (∀ j p, out !! j = Some p →
       (p ∉ dom (waypoint_objs h)) ∧
       ∃ wp, waypoints !! j = Some wp ∧
             waypoint_objs h' !! p
             = Some (decelerated_waypoint h waypoints (stop_index s c) j wp)).
Proof.
  intros Hin [->|Hstop].
  - exists h, []. split; [done|]. split; [apply heap_extends_refl|]. by split.
  - unfold decelerate_waypoints.
    apply (decelerate_loop_spec s c h waypoints Hin Hstop waypoints 0 h []);
      [apply heap_extends_refl | done | done | lia | done].
Qed.

(** The speeds and poses of the objects it returns. *)
Lemma decelerate_waypoints_result (s c : Z) (h : Heap) (waypoints : list loc) :
  lane_in_heap h waypoints →
  waypoints = [] ∨ Z.to_nat (stop_index s c) < length waypoints →
  ∃ h' out,
    decelerate_waypoints s h waypoints c = Ok (h', out) ∧
    heap_extends h h' ∧
    velocities h' out = imap (decelerated_velocity h waypoints (stop_index s c)) waypoints ∧
    pose_of h' <$> out = pose_of h <$> waypoints.
Proof.
  intros Hin Hstop.
  destruct (decelerate_waypoints_spec s c h waypoints Hin Hstop)
    as (h' & out & Hrun & Hext & Hlen & Hout).
  exists h', out. split; [done|]. split; [done|].
  split.
  - apply (list_eq_same_length _ _ (length waypoints)).
    + by rewrite length_imap.
    + unfold velocities. by rewrite length_fmap.
    + intros j v v' Hj Hv Hv'.
      unfold velocities in Hv. rewrite list_lookup_fmap in Hv.
      destruct (out !! j) as [p|] eqn:Hp; [|done]. injection Hv as <-.
      destruct (Hout j p Hp) as (_ & wp & Hwp & Hlook).
      rewrite list_lookup_imap, Hwp in Hv'. injection Hv' as <-.
      unfold velocity_of, waypoint_at. rewrite lookup_total_alt, Hlook. done.
  - apply (list_eq_same_length _ _ (length waypoints)).
    + by rewrite length_fmap.
    + by rewrite length_fmap.
    + intros j v v' Hj Hv Hv'.
      rewrite list_lookup_fmap in Hv. rewrite list_lookup_fmap in Hv'.
      destruct (out !! j) as [p|] eqn:Hp; [|done]. injection Hv as <-.
      destruct (Hout j p Hp) as (_ & wp & Hwp & Hlook).
      rewrite Hwp in Hv'. injection Hv' as <-.
      unfold pose_of, waypoint_at.
      rewrite (lookup_total_alt (waypoint_objs h') p), Hlook.
      cbn. destruct Hext as [E _]. by rewrite E.
Qed.

(** When the stop position lies beyond a non-empty window, the first
    round of the loop reads past the end of the list. *)
Lemma decelerate_waypoints_overflow (s c : Z) (h : Heap) (waypoints : list loc) :
  waypoints ≠ [] → length waypoints ≤ Z.to_nat (stop_index s c) →
  decelerate_waypoints s h waypoints c = Raise IndexError.
Proof.
  intros Hne Hstop. destruct waypoints as [|wp rest]; [done|].
  unfold decelerate_waypoints. cbn [decelerate_loop]. cbv zeta.
  rewrite <- (Z2Nat.id (stop_index s c)) by apply stop_index_nonneg.
  change 0%Z with (Z.of_nat 0).
  rewrite distance_overflow; [done | cbn; lia | done].
Qed.

(** Whatever the window, a call that returns has only added objects. *)
Lemma decelerate_loop_frame (s c : Z) (waypoints : list loc) :
  ∀ (todo : list loc) (i : Z) (hk : Heap) (acc : list loc) (h' : Heap) (out : list loc),
    decelerate_loop s c waypoints i todo hk acc = Ok (h', out) →
    heap_extends hk h' ∧
    length out = length acc + length todo ∧
    ∀ p, p ∈ out → p ∈ acc ∨ p ∉ dom (waypoint_objs hk).
Proof.
  induction todo as [|wp todo IH]; intros i hk acc h' out Hrun.
  - cbn in Hrun. injection Hrun as <- <-.
    split; [apply heap_extends_refl|]. split; [cbn; lia | auto].
  - cbn [decelerate_loop] in Hrun. cbv zeta in Hrun.
    destruct (distance hk waypoints i (stop_index s c)) as [dist|e]; [|done].
    cbn [mbind result_bind] in Hrun.
    set (w := {| wp_pose := wp_pose (waypoint_at hk wp);
                 twist_linear_x := py_min (stop_velocity dist) (velocity_of hk wp) |}) in Hrun.
    pose proof (new_waypoint_fresh hk w) as Hfresh.
    pose proof (new_waypoint_extends hk w) as Hext.
    destruct (new_waypoint hk w) as [p hk'] eqn:E. cbn [fst snd] in *.
    destruct (IH _ _ _ _ _ Hrun) as (Hext' & Hlen & Hnew).
    split; [by eapply heap_extends_trans|].
    split; [rewrite Hlen, length_app; cbn; lia|].
    intros q Hq. destruct (Hnew q Hq) as [Hq'|Hq'].
    + apply elem_of_app in Hq' as [Hq'|Hq']; [by left|].
      apply list_elem_of_singleton in Hq' as ->. by right.
    + right. intros Hd. apply Hq'. by eapply heap_extends_dom.
Qed.

(** ** The window *)

Lemma py_slice_fmap {A B} (f : A → B) (l : list A) (a b : Z) :
  f <$> py_slice l a b = py_slice (f <$> l) a b.
Proof. unfold py_slice. by rewrite fmap_take, fmap_drop, length_fmap. Qed.

Lemma base_lane_waypoints_take_drop (lane : list loc) (c : Z) :
  (0 ≤ c)%Z →
  base_lane_waypoints lane c
  = take (Z.to_nat LOOKAHEAD_WPS) (drop (Z.to_nat c) lane).
Proof.
  intros Hc. unfold base_lane_waypoints.
  by rewrite py_slice_forward by (done || unfold LOOKAHEAD_WPS; lia).
Qed.

(** The slice [lane[c : c + LOOKAHEAD_WPS]] for [c] in [0, N): the first
    [LOOKAHEAD_WPS] waypoints of the lane from [c] on, no wrapping. *)
Lemma base_lane_waypoints_truncated (lane : list loc) (c : Z) :
  (0 ≤ c < Z.of_nat (length lane))%Z →
  base_lane_waypoints lane c = take 200 (drop (Z.to_nat c) lane) ∧
  Z.of_nat (length (base_lane_waypoints lane c))
  = Z.min LOOKAHEAD_WPS (Z.of_nat (length lane) - c) ∧
  ∀ i : nat, i < length (base_lane_waypoints lane c) →
    Z.to_nat c + i < length lane ∧
    base_lane_waypoints lane c !! i = lane !! (Z.to_nat c + i).
Proof.
  intros [Hc Hlt].
  rewrite base_lane_waypoints_take_drop by done.
  change (Z.to_nat LOOKAHEAD_WPS) with 200.
  split; [done|]. split.
  - rewrite length_take, length_drop. unfold LOOKAHEAD_WPS. lia.
  - intros i. rewrite length_take, length_drop. intros Hi.
    split; [lia|].
    rewrite lookup_take_lt by lia. apply lookup_drop.
Qed.

(** ** The node *)

Section NodeProperties.
Context {tree : Type}.
Variable KDTree : list (R * R) → result tree.
Variable query : tree → R * R → Z.

Lemma ready_needs_tree (st : State tree) :
  waypoint_tree st = None → ready st = false.
Proof.
  intros E. unfold ready. rewrite E.
  rewrite (bool_decide_eq_false_2 (is_Some None)) by (by intros [? ?]).
  by rewrite andb_false_r.
Qed.

Lemma handle_waypoint_tree (st : State tree) (ev : event) :
  waypoint_tree (handle st ev) = waypoint_tree st.
Proof. by destruct ev. Qed.

Lemma handle_waypoints_2d (st : State tree) (ev : event) :
  waypoints_2d (handle st ev) = waypoints_2d st.
Proof. by destruct ev. Qed.

Lemma handle_base_lane (st : State tree) (ev : event) :
  base_lane (handle st ev) = base_lane st.
Proof. by destruct ev. Qed.

Lemma foldl_handle_waypoint_tree (evs : list event) (st : State tree) :
  waypoint_tree (foldl handle st evs) = waypoint_tree st.
Proof.
  revert st. induction evs as [|ev evs IH]; intros st; [done|].
  cbn. by rewrite IH, handle_waypoint_tree.
Qed.

(** The locator reads the pose, the coordinate list and the tree, and
    nothing else. *)
Lemma get_closest_waypoint_idx_ext (st1 st2 : State tree) :
  pose st1 = pose st2 → waypoints_2d st1 = waypoints_2d st2 →
  waypoint_tree st1 = waypoint_tree st2 →
  get_closest_waypoint_idx query st1 = get_closest_waypoint_idx query st2.
Proof. intros Hp Hw Ht. unfold get_closest_waypoint_idx. by rewrite Hp, Hw, Ht. Qed.

Lemma generate_lane_extends (st : State tree) (h h' : Heap) (out : list loc) :
  generate_lane query st h = Ok (h', out) → heap_extends h h'.
Proof.
  unfold generate_lane.
  destruct (get_closest_waypoint_idx query st) as [c|]; [|done].
  destruct (base_lane st) as [lane|]; [|done]. cbn.
  destruct (_ || _).
  - intros [= <- _]. apply heap_extends_refl.
  - intros Hrun. by apply decelerate_loop_frame in Hrun as [? _].
Qed.
End NodeProperties.

(** ** Concrete runs *)

Lemma track3_state_fields (x : R) (s : Z) :
  track3_state x s
  = {| pose := Some (pose_at x 0 0); base_lane := Some track3;
       stopline_wp_idx := s;
       waypoints_2d := Some [(0, 0); (5, 0); (9, 0)]%R;
       waypoint_tree := Some [(0, 0); (5, 0); (9, 0)]%R |}.
Proof. reflexivity. Qed.

Lemma track3_in_heap : lane_in_heap track3_heap track3.
Proof.
  unfold lane_in_heap, track3.
  repeat constructor; apply elem_of_dom; eexists; reflexivity.
Qed.

Lemma reverse_track_in_heap : lane_in_heap reverse_heap reverse_track.
Proof.
  unfold lane_in_heap, reverse_track.
  repeat constructor; apply elem_of_dom; eexists; reflexivity.
Qed.

Lemma py_index_eval {A} (l : list A) (i : Z) (j : nat) (a : A) :
  (if (i <? 0)%Z then (i + Z.of_nat (length l))%Z else i) = Z.of_nat j →
  l !! j = Some a → py_index l i = Ok a.
Proof.
  intros Hj Ha. unfold py_index. cbv zeta. rewrite Hj.
  destruct (Z.ltb_spec (Z.of_nat j) 0) as [?|_]; [lia|].
  by rewrite Nat2Z.id, Ha.
Qed.

(** A vehicle at the first waypoint of [track3]: the tree answers 0 and the
    locator keeps it. *)
Lemma track3_closest_at_start (s : Z) :
  get_closest_waypoint_idx scan_query (track3_state 0 s) = Ok 0%Z.
Proof.
  rewrite track3_state_fields. unfold get_closest_waypoint_idx. cbn.
  decide_reals.
  erewrite (py_index_eval _ 0%Z 0) by reflexivity.
  erewrite (py_index_eval _ (0 - 1)%Z 2) by reflexivity.
  cbn. decide_reals. reflexivity.
Qed.

(** ** The locator *)

(** What the source computes is the dot product of the specification with
    the pair [(c, c)] of the index in place of the coordinate [C]. *)
Lemma dot_broadcast_dot_2d (c : Z) (prev P : R * R) :
  dot_broadcast (IZR c) prev P = dot_2d (IZR c, IZR c) prev P.
Proof. reflexivity. Qed.

(** C1: on [track3] with the vehicle at [(4, 0)] the tree answers [c = 1],
    whose coordinate is [C = (5, 0)] and whose predecessor is [(0, 0)].
    The dot product of [(C - prev)] with [(P - C)] is [-5], so the locator
    of the specification returns [1]; [get_closest_waypoint_idx] takes the
    index [1] itself for [C], finds [2 > 0] and returns [2]. *)
Theorem get_closest_waypoint_idx_takes_index_for_coordinate :
  get_closest_waypoint_idx scan_query (track3_state 4 (-1)) = Ok 2%Z ∧
  spec_locate scan_query (track3_state 4 (-1)) = Ok 1%Z.
Proof.
  rewrite track3_state_fields. split.
  - unfold get_closest_waypoint_idx. cbn. decide_reals.
    erewrite (py_index_eval _ 1%Z 1) by reflexivity.
    erewrite (py_index_eval _ (1 - 1)%Z 0) by reflexivity.
    cbn. decide_reals. reflexivity.
  - unfold spec_locate. cbn. decide_reals.
    erewrite (py_index_eval _ 1%Z 1) by reflexivity.
    erewrite (py_index_eval _ (1 - 1)%Z 0) by reflexivity.
    cbn. decide_reals. reflexivity.
Qed.

(** ** Stop positions at the start of the window *)

Lemma decelerated_velocity_past_stop (h : Heap) (waypoints : list loc)
    (stop_idx : Z) (i : nat) (wp : loc) :
  Z.to_nat stop_idx ≤ i →
  decelerated_velocity h waypoints stop_idx i wp = Rmin 0 (velocity_of h wp).
Proof.
  intros Hi. unfold decelerated_velocity.
  rewrite arc_length_at_or_past_stop by done.
  by rewrite stop_velocity_0, py_min_Rmin.
Qed.

(** A stop line at most two waypoints ahead of the closest one puts the
    stop position at [0]: every waypoint of the window is at or past it. *)
Lemma decelerate_waypoints_stop_at_start (s c : Z) (h : Heap) (waypoints : list loc) :
  lane_in_heap h waypoints → (s ≤ c + 2)%Z →
  ∃ h' out,
    decelerate_waypoints s h waypoints c = Ok (h', out) ∧
    heap_extends h h' ∧
    velocities h' out = (λ wp, Rmin 0 (velocity_of h wp)) <$> waypoints.
Proof.
  intros Hin Hnear.
  assert (stop_index s c = 0%Z) as Hstop by (unfold stop_index; lia).
  destruct (decelerate_waypoints_result s c h waypoints)
    as (h' & out & Hrun & Hext & Hvel & _); [done | |].
  { rewrite Hstop. destruct waypoints; [by left|]. right. cbn. lia. }
  exists h', out. split; [done|]. split; [done|].
  rewrite Hvel, Hstop.
  apply list_eq. intros i. rewrite list_lookup_imap, list_lookup_fmap.
  destruct (waypoints !! i) as [wp|]; [|done]. cbn.
  by rewrite decelerated_velocity_past_stop by (cbn; lia).
Qed.

(** ** Planning cycles *)

Section Planning.
Context {tree : Type}.
Variable KDTree : list (R * R) → result tree.
Variable query : tree → R * R → Z.

(** C4: with the sentinel [-1] as stop-line index, or a stop-line index at
    or beyond [c + LOOKAHEAD_WPS], [generate_lane] returns the window
    itself and leaves the heap as it is, so the speeds it publishes are the
    nominal speeds of the base lane over the window. *)
Theorem generate_lane_without_stop (st : State tree) (h : Heap)
    (c : Z) (lane : list loc) :
  get_closest_waypoint_idx query st = Ok c →
  base_lane st = Some lane →
  stopline_wp_idx st = (-1)%Z ∨ (c + LOOKAHEAD_WPS ≤ stopline_wp_idx st)%Z →
  generate_lane query st h = Ok (h, base_lane_waypoints lane c) ∧
  velocities h (base_lane_waypoints lane c)
  = py_slice (velocities h lane) c (c + LOOKAHEAD_WPS) ∧
  loop_body query st h
  = (if ready st
     then Ok (h, Some (published h (base_lane_waypoints lane c)))
     else Ok (h, None)).
Proof.
  intros Hc Hlane Hstop.
  assert (generate_lane query st h = Ok (h, base_lane_waypoints lane c)) as Hgen.
  { unfold generate_lane. rewrite Hc, Hlane. cbn.
    destruct Hstop as [->|Hfar]; [done|].
    destruct (Z.leb_spec (c + LOOKAHEAD_WPS) (stopline_wp_idx st)); [|lia].
    by rewrite orb_true_r. }
  split; [done|]. split.
  - unfold velocities, base_lane_waypoints. apply py_slice_fmap.
  - unfold loop_body, publish_waypoint. rewrite Hc, Hgen. cbn.
    by destruct (ready st).
Qed.

Lemma generate_lane_decelerates (st : State tree) (h : Heap)
    (c : Z) (lane : list loc) :
  get_closest_waypoint_idx query st = Ok c →
  base_lane st = Some lane →
  stopline_wp_idx st ≠ (-1)%Z →
  (stopline_wp_idx st < c + LOOKAHEAD_WPS)%Z →
  generate_lane query st h
  = decelerate_waypoints (stopline_wp_idx st) h (base_lane_waypoints lane c) c.
Proof.
  intros Hc Hlane Hne Hlt.
  unfold generate_lane. rewrite Hc, Hlane. cbn.
  destruct (Z.eqb_spec (stopline_wp_idx st) (-1)); [done|].
  destruct (Z.leb_spec (c + LOOKAHEAD_WPS) (stopline_wp_idx st)); [lia|].
  done.
Qed.

(** C6, amended: a stop-line index other than [-1] and below
    [c + LOOKAHEAD_WPS] is handed to [decelerate_waypoints] as it is,
    whether or not it is an index of the base lane.  When it is at most
    [c + 2], as every negative one is, the stop position is [0] and every
    speed of the window becomes [min(0, nominal speed)]. *)
Theorem generate_lane_unchecked_stop (st : State tree) (h : Heap)
    (c : Z) (lane : list loc) :
  get_closest_waypoint_idx query st = Ok c →
  base_lane st = Some lane → lane_in_heap h lane →
  stopline_wp_idx st ≠ (-1)%Z →
  (stopline_wp_idx st < c + LOOKAHEAD_WPS)%Z →
  generate_lane query st h
  = decelerate_waypoints (stopline_wp_idx st) h (base_lane_waypoints lane c) c ∧
  ((stopline_wp_idx st ≤ c + 2)%Z →
   ∃ h' out,
     generate_lane query st h = Ok (h', out) ∧
     velocities h' out
     = (λ wp, Rmin 0 (velocity_of h wp)) <$> base_lane_waypoints lane c).
Proof.
  intros Hc Hlane Hin Hne Hlt.
  pose proof (generate_lane_decelerates st h c lane Hc Hlane Hne Hlt) as Hgen.
  split; [done|]. intros Hnear.
  destruct (decelerate_waypoints_stop_at_start (stopline_wp_idx st) c h
              (base_lane_waypoints lane c))
    as (h' & out & Hrun & _ & Hvel); [by apply lane_in_heap_slice | done |].
  exists h', out. by rewrite Hgen.
Qed.
End Planning.

(** ** Loading the route *)

Section RouteLoading.
Context {tree : Type}.
Variable KDTree : list (R * R) → result tree.
Variable query : tree → R * R → Z.

(** After a non-empty route the coordinate list is true for Python. *)
Lemma waypoints_cb_truthy (st : State tree) (h : Heap) (waypoints : list loc) :
  waypoints ≠ [] →
  list_truthy (waypoints_2d (waypoints_cb KDTree st h waypoints).1) = true.
Proof.
  intros Hne. unfold waypoints_cb.
  destruct (list_truthy (waypoints_2d st)) eqn:E; [done|].
  destruct waypoints as [|w ws]; [done|].
  by destruct (KDTree _).
Qed.

(** Once the coordinate list is true, [waypoints_cb] only replaces the
    base lane, whatever constructor it is given. *)
Lemma waypoints_cb_index_kept (st : State tree) (h : Heap) (waypoints : list loc) :
  list_truthy (waypoints_2d st) = true →
  waypoints_cb KDTree st h waypoints
  = ({| pose := pose st; base_lane := Some waypoints;
        stopline_wp_idx := stopline_wp_idx st;
        waypoints_2d := waypoints_2d st; waypoint_tree := waypoint_tree st |},
     Ok ()).
Proof. intros E. unfold waypoints_cb. by rewrite E. Qed.

Lemma waypoints_cb_base_lane (st : State tree) (h : Heap) (waypoints : list loc) :
  base_lane (waypoints_cb KDTree st h waypoints).1 = Some waypoints.
Proof.
  unfold waypoints_cb. destruct (list_truthy _); [done|].
  by destruct (KDTree _).
Qed.

(** Loading the same route twice leaves the node in the state of the
    first load, for every route. *)
Lemma waypoints_cb_twice (st : State tree) (h : Heap) (waypoints : list loc) :
  (waypoints_cb KDTree (waypoints_cb KDTree st h waypoints).1 h waypoints).1
  = (waypoints_cb KDTree st h waypoints).1.
Proof.
  unfold waypoints_cb at 2 3.
  destruct (list_truthy (waypoints_2d st)) eqn:E.
  - cbn. unfold waypoints_cb. cbn. by rewrite E.
  - destruct (KDTree (coordinates_2d h waypoints)) as [t|e] eqn:EK; cbn.
    + unfold waypoints_cb. cbn. destruct (coordinates_2d h waypoints); [|done].
      cbn. by rewrite EK.
    + unfold waypoints_cb. cbn. destruct (coordinates_2d h waypoints); [|done].
      cbn. by rewrite EK.
Qed.

(** C8: after a route has been loaded, loading it again calls no
    constructor and returns normally; the coordinate list and the tree are
    the ones of the first load, the whole state is, and for every pose the
    locator returns what it returned before.  The same holds when the
    second message carries other waypoint objects. *)
Theorem waypoints_cb_idempotent (st : State tree) (h : Heap) (waypoints : list loc) :
  waypoints ≠ [] →
  let st1 := (waypoints_cb KDTree st h waypoints).1 in
  (∀ KDTree', waypoints_cb KDTree' st1 h waypoints = (st1, Ok ())) ∧
  ∀ KDTree' h' waypoints',
    let st2 := (waypoints_cb KDTree' st1 h' waypoints').1 in
    (waypoints_cb KDTree' st1 h' waypoints').2 = Ok () ∧
    waypoints_2d st2 = waypoints_2d st1 ∧
    waypoint_tree st2 = waypoint_tree st1 ∧
    ∀ msg, get_closest_waypoint_idx query (pose_cb st2 msg)
           = get_closest_waypoint_idx query (pose_cb st1 msg).
Proof.
  intros Hne st1.
  pose proof (waypoints_cb_truthy st h waypoints Hne) as Htrue.
  fold st1 in Htrue. split.
  - intros KDTree'. unfold waypoints_cb at 1. rewrite Htrue.
    f_equal. pose proof (waypoints_cb_base_lane st h waypoints) as Hb.
    fold st1 in Hb. destruct st1. cbn in *. by rewrite Hb.
  - intros KDTree' h' waypoints' st2. subst st2.
    unfold waypoints_cb at 1 2 3 4. rewrite Htrue. cbn.
    by repeat split.
Qed.
End RouteLoading.

(** ** The theorems on concrete runs *)

Lemma generate_lane_without_stop_witness :
  get_closest_waypoint_idx scan_query (track3_state 0 (-1)) = Ok 0%Z ∧
  base_lane (track3_state 0 (-1)) = Some track3 ∧
  (stopline_wp_idx (track3_state 0 (-1)) = (-1)%Z ∨
   (0 + LOOKAHEAD_WPS ≤ stopline_wp_idx (track3_state 0 (-1)))%Z) ∧
  generate_lane scan_query (track3_state 0 (-1)) track3_heap
  = Ok (track3_heap, base_lane_waypoints track3 0) ∧
  velocities track3_heap (base_lane_waypoints track3 0)
  = py_slice (velocities track3_heap track3) 0 (0 + LOOKAHEAD_WPS) ∧
  loop_body scan_query (track3_state 0 (-1)) track3_heap
  = (if ready (track3_state 0 (-1))
     then Ok (track3_heap, Some (published track3_heap (base_lane_waypoints track3 0)))
     else Ok (track3_heap, None)).
Proof.
  split; [apply track3_closest_at_start|].
  split; [reflexivity|].
  split; [left; reflexivity|].
  apply (generate_lane_without_stop scan_query (track3_state 0 (-1)) track3_heap
           0 track3).
  - apply track3_closest_at_start.
  - reflexivity.
  - left; reflexivity.
Defined.

Lemma generate_lane_unchecked_stop_witness :
  get_closest_waypoint_idx scan_query (track3_state 0 (-2)) = Ok 0%Z ∧
  base_lane (track3_state 0 (-2)) = Some track3 ∧
  lane_in_heap track3_heap track3 ∧
  stopline_wp_idx (track3_state 0 (-2)) ≠ (-1)%Z ∧
  (stopline_wp_idx (track3_state 0 (-2)) < 0 + LOOKAHEAD_WPS)%Z ∧
  generate_lane scan_query (track3_state 0 (-2)) track3_heap
  = decelerate_waypoints (stopline_wp_idx (track3_state 0 (-2))) track3_heap
      (base_lane_waypoints track3 0) 0 ∧
  ((stopline_wp_idx (track3_state 0 (-2)) ≤ 0 + 2)%Z →
   ∃ h' out,
     generate_lane scan_query (track3_state 0 (-2)) track3_heap = Ok (h', out) ∧
     velocities h' out
     = (λ wp, Rmin 0 (velocity_of track3_heap wp)) <$> base_lane_waypoints track3 0).
Proof.
  split; [apply track3_closest_at_start|].
  split; [reflexivity|].
  split; [apply track3_in_heap|].
  split; [simpl; lia|].
  split; [simpl; unfold LOOKAHEAD_WPS; lia|].
  apply (generate_lane_unchecked_stop scan_query (track3_state 0 (-2)) track3_heap
           0 track3).
  - apply track3_closest_at_start.
  - reflexivity.
  - apply track3_in_heap.
  - simpl; lia.
  - simpl; unfold LOOKAHEAD_WPS; lia.
Defined.

(** The stop-line index [-2] is no index of [track3], yet the cycle does
    not publish the nominal speeds [10, 10, 10]: it publishes [0, 0, 0]. *)
Lemma negative_stop_index_halts_window :
  ¬ (0 ≤ -2 < Z.of_nat (length track3))%Z ∧
  ∃ h' out,
    generate_lane scan_query (track3_state 0 (-2)) track3_heap = Ok (h', out) ∧
    velocities h' out = [0; 0; 0]%R ∧
    velocities track3_heap (base_lane_waypoints track3 0) = [10; 10; 10]%R ∧
    velocities h' out ≠ velocities track3_heap (base_lane_waypoints track3 0).
Proof.
  split; [simpl; lia|].
  destruct (decelerate_waypoints_stop_at_start (-2) 0 track3_heap track3)
    as (h' & out & Hrun & _ & Hvel); [apply track3_in_heap | lia |].
  exists h', out.
  assert (velocities h' out = [0; 0; 0]%R) as Hzero.
  { rewrite Hvel. cbn. change (velocity_of track3_heap _) with 10%R.
    by rewrite Rmin_left by lra. }
  split.
  - rewrite (generate_lane_decelerates scan_query (track3_state 0 (-2))
               track3_heap 0 track3);
      [exact Hrun | apply track3_closest_at_start | reflexivity
      | simpl; lia | simpl; unfold LOOKAHEAD_WPS; lia].
  - split; [done|]. split; [reflexivity|].
    rewrite Hzero.
    change (velocities track3_heap (base_lane_waypoints track3 0))
      with [10; 10; 10]%R.
    intros [= H]. lra.
Qed.

(** A stop-line index beyond the lane and below [c + LOOKAHEAD_WPS] makes
    the cycle end with [IndexError]. *)
Lemma stop_index_beyond_lane_raises :
  generate_lane scan_query (track3_state 0 7) track3_heap = Raise IndexError.
Proof.
  rewrite (generate_lane_decelerates scan_query (track3_state 0 7)
             track3_heap 0 track3);
    [| apply track3_closest_at_start | reflexivity
     | simpl; lia | simpl; unfold LOOKAHEAD_WPS; lia].
  apply decelerate_waypoints_overflow; [done|].
  change (3 ≤ 5). lia.
Qed.

Lemma waypoints_cb_idempotent_witness :
  track3 ≠ [] ∧
  let st1 := (waypoints_cb scan_KDTree init track3_heap track3).1 in
  (∀ KDTree', waypoints_cb KDTree' st1 track3_heap track3 = (st1, Ok ())) ∧
  ∀ KDTree' h' waypoints',
    let st2 := (waypoints_cb KDTree' st1 h' waypoints').1 in
    (waypoints_cb KDTree' st1 h' waypoints').2 = Ok () ∧
    waypoints_2d st2 = waypoints_2d st1 ∧
    waypoint_tree st2 = waypoint_tree st1 ∧
    ∀ msg, get_closest_waypoint_idx scan_query (pose_cb st2 msg)
           = get_closest_waypoint_idx scan_query (pose_cb st1 msg).
Proof.
  split; [discriminate|].
  apply (waypoints_cb_idempotent scan_KDTree scan_query init track3_heap track3).
  discriminate.
Defined.

(** ** The deceleration profile *)

(** [decelerate_waypoints], waypoint by waypoint. *)
Lemma decelerate_waypoints_pointwise (s c : Z) (h : Heap) (waypoints : list loc) :
  lane_in_heap h waypoints →
  waypoints = [] ∨ Z.to_nat (stop_index s c) < length waypoints →
  ∃ h' out,
    decelerate_waypoints s h waypoints c = Ok (h', out) ∧
    heap_extends h h' ∧ length out = length waypoints ∧
    ∀ (i : nat) (p wp : loc),
      out !! i = Some p → waypoints !! i = Some wp →
      (p ∉ dom (waypoint_objs h)) ∧
      velocity_of h' p = decelerated_velocity h waypoints (stop_index s c) i wp ∧
      pose_of h' p = pose_of h wp.
Proof.
  intros Hin Hstop.
  destruct (decelerate_waypoints_spec s c h waypoints Hin Hstop)
    as (h' & out & Hrun & Hext & Hlen & Hout).
  exists h', out. split; [done|]. split; [done|]. split; [done|].
  intros i p wp Hp Hwp.
  destruct (Hout i p Hp) as (Hfresh & wp' & Hwp' & Hlook).
  assert (wp' = wp) as -> by congruence.
  split; [done|]. split.
  - unfold velocity_of, waypoint_at. by rewrite lookup_total_alt, Hlook.
  - unfold pose_of, waypoint_at.
    rewrite (lookup_total_alt (waypoint_objs h') p), Hlook. cbn.
    destruct Hext as [E _]. by rewrite E.
Qed.

Lemma stop_index_in_window (s c : Z) (n : nat) :
  (c ≤ s < c + Z.of_nat n)%Z → Z.to_nat (stop_index s c) < n.
Proof. unfold stop_index. lia. Qed.

Lemma decelerated_velocity_bound (h : Heap) (waypoints : list loc)
    (stop_idx : Z) (i : nat) (wp : loc) :
  (decelerated_velocity h waypoints stop_idx i wp
   <= Rmin (sqrt (2 * MAX_DECEL * arc_length h waypoints i (Z.to_nat stop_idx)))
           (velocity_of h wp))%R.
Proof.
  unfold decelerated_velocity. rewrite py_min_Rmin.
  apply Rle_min_compat_r, stop_velocity_le.
Qed.

Lemma decelerated_velocity_snap (h : Heap) (waypoints : list loc)
    (stop_idx : Z) (i : nat) (wp : loc) :
  (sqrt (2 * MAX_DECEL * arc_length h waypoints i (Z.to_nat stop_idx)) < 1)%R →
  decelerated_velocity h waypoints stop_idx i wp = Rmin 0 (velocity_of h wp).
Proof.
  intros Hlt. unfold decelerated_velocity.
  by rewrite stop_velocity_snap, py_min_Rmin.
Qed.

(** Arc lengths and speeds on [track3]. *)
Lemma Rabs_minus_left (a b : R) : (a <= b)%R → Rabs (a - b) = (b - a)%R.
Proof. intros. unfold Rabs. destruct (Rcase_abs (a - b)); lra. Qed.

Lemma track3_arc_from_0 : arc_length track3_heap track3 0 2 = 9%R.
Proof.
  change (arc_length track3_heap track3 0 2)
    with (dl {| p_x := 0; p_y := 0; p_z := 0 |} {| p_x := 5; p_y := 0; p_z := 0 |}
          + (dl {| p_x := 5; p_y := 0; p_z := 0 |} {| p_x := 9; p_y := 0; p_z := 0 |}
             + 0))%R.
  rewrite !dl_on_x_axis, !Rabs_minus_left by lra. lra.
Qed.

Lemma track3_arc_from_1 : arc_length track3_heap track3 1 2 = 4%R.
Proof.
  change (arc_length track3_heap track3 1 2)
    with (dl {| p_x := 5; p_y := 0; p_z := 0 |} {| p_x := 9; p_y := 0; p_z := 0 |}
          + 0)%R.
  rewrite dl_on_x_axis, Rabs_minus_left by lra. lra.
Qed.

Lemma track3_arc_from_2 : arc_length track3_heap track3 2 2 = 0%R.
Proof. reflexivity. Qed.

(** With the stop line at index 4 and the vehicle at index 0 the stop
    position is 2, and the three waypoints get the speeds 3, 2 and 0. *)
Lemma track3_deceleration_profile :
  ∃ h' out,
    decelerate_waypoints 4 track3_heap track3 0 = Ok (h', out) ∧
    velocities h' out = [3; 2; 0]%R.
Proof.
  destruct (decelerate_waypoints_result 4 0 track3_heap track3)
    as (h' & out & Hrun & _ & Hvel & _).
  { apply track3_in_heap. }
  { right. change (2 < 3). lia. }
  exists h', out. split; [done|]. rewrite Hvel.
  change (imap (decelerated_velocity track3_heap track3 (stop_index 4 0)) track3)
    with [py_min (stop_velocity (arc_length track3_heap track3 0 2)) 10;
          py_min (stop_velocity (arc_length track3_heap track3 1 2)) 10;
          py_min (stop_velocity (arc_length track3_heap track3 2 2)) 10]%R.
  rewrite track3_arc_from_0, track3_arc_from_1, track3_arc_from_2.
  replace 9%R with (3 * 3)%R by lra. replace 4%R with (2 * 2)%R by lra.
  rewrite !stop_velocity_square by lra. rewrite stop_velocity_0.
  rewrite !py_min_Rmin. rewrite !Rmin_left by lra. done.
Qed.

(** C2, amended: for the waypoint at position [i] of the window the
    distance put into [sqrt(2 * MAX_DECEL * dist)] is the arc length from
    position [i] to the stop position, the sum of the straight-line
    distances between consecutive waypoints from [i] on; it is [0] from the
    stop position on.  It is not the same for every [i]. *)
Theorem decelerate_distance_from_each_waypoint (s c : Z) (h : Heap)
    (waypoints : list loc) :
  lane_in_heap h waypoints →
  Z.to_nat (stop_index s c) < length waypoints →
  (∀ i : nat,
     distance h waypoints (Z.of_nat i) (stop_index s c)
     = Ok (arc_length h waypoints i (Z.to_nat (stop_index s c)))) ∧
  (∀ i : nat, Z.to_nat (stop_index s c) ≤ i →
     arc_length h waypoints i (Z.to_nat (stop_index s c)) = 0%R) ∧
  ∃ h' out,
    decelerate_waypoints s h waypoints c = Ok (h', out) ∧
    velocities h' out
    = imap (λ i wp,
              py_min (stop_velocity
                        (arc_length h waypoints i (Z.to_nat (stop_index s c))))
                     (velocity_of h wp)) waypoints.
Proof.
  intros Hin Hstop. split; [|split].
  - intros i. apply distance_to_stop; [apply stop_index_nonneg | done].
  - intros i Hi. by apply arc_length_at_or_past_stop.
  - destruct (decelerate_waypoints_result s c h waypoints Hin (or_intror Hstop))
      as (h' & out & Hrun & _ & Hvel & _).
    by exists h', out.
Qed.

Lemma decelerate_distance_from_each_waypoint_witness :
  lane_in_heap track3_heap track3 ∧
  Z.to_nat (stop_index 4 0) < length track3 ∧
  (∀ i : nat,
     distance track3_heap track3 (Z.of_nat i) (stop_index 4 0)
     = Ok (arc_length track3_heap track3 i (Z.to_nat (stop_index 4 0)))) ∧
  (∀ i : nat, Z.to_nat (stop_index 4 0) ≤ i →
     arc_length track3_heap track3 i (Z.to_nat (stop_index 4 0)) = 0%R) ∧
  ∃ h' out,
    decelerate_waypoints 4 track3_heap track3 0 = Ok (h', out) ∧
    velocities h' out
    = imap (λ i wp,
              py_min (stop_velocity
                        (arc_length track3_heap track3 i (Z.to_nat (stop_index 4 0))))
                     (velocity_of track3_heap wp)) track3.
Proof.
  split; [apply track3_in_heap|].
  split; [change (2 < 3); lia|].
  apply (decelerate_distance_from_each_waypoint 4 0 track3_heap track3).
  - apply track3_in_heap.
  - change (2 < 3); lia.
Defined.

(** On [track3] with the stop position at 2 the arc length from the start
    of the window to the stop position is 9, but the distance computed for
    the waypoint at position 1 is 4, and the speeds are 3, 2 and 0 rather
    than one speed for all. *)
Lemma distance_differs_between_waypoints :
  ¬ (∀ i : nat, i < length track3 →
       distance track3_heap track3 (Z.of_nat i) (stop_index 4 0)
       = Ok (arc_length track3_heap track3 0 (Z.to_nat (stop_index 4 0)))) ∧
  distance track3_heap track3 0 (stop_index 4 0) = Ok 9%R ∧
  distance track3_heap track3 1 (stop_index 4 0) = Ok 4%R ∧
  ∃ h' out,
    decelerate_waypoints 4 track3_heap track3 0 = Ok (h', out) ∧
    velocities h' out = [3; 2; 0]%R.
Proof.
  assert (distance track3_heap track3 0 (stop_index 4 0) = Ok 9%R) as H0.
  { transitivity (Ok (arc_length track3_heap track3 0 2)).
    - apply (distance_to_stop track3_heap track3 0 (stop_index 4 0));
        [apply stop_index_nonneg | change (2 < 3); lia].
    - by rewrite track3_arc_from_0. }
  assert (distance track3_heap track3 1 (stop_index 4 0) = Ok 4%R) as H1.
  { transitivity (Ok (arc_length track3_heap track3 1 2)).
    - apply (distance_to_stop track3_heap track3 1 (stop_index 4 0));
        [apply stop_index_nonneg | change (2 < 3); lia].
    - by rewrite track3_arc_from_1. }
  split; [|split; [done|split; [done|apply track3_deceleration_profile]]].
  intros H.
  assert (Ok 4%R = Ok 9%R) as E.
  { rewrite <- H1.
    transitivity (Ok (arc_length track3_heap track3 0 (Z.to_nat (stop_index 4 0)))).
    - apply (H 1). change (1 < 3). lia.
    - change (Z.to_nat (stop_index 4 0)) with 2. by rewrite track3_arc_from_0. }
  injection E as E. lra.
Qed.

(** C3, amended: for a stop line inside the window,
    [decelerate_waypoints] returns, and every speed it gives is at most
    [min(sqrt(2 * MAX_DECEL * dist), nominal speed)] for the distance [dist]
    computed for that waypoint; where [sqrt(2 * MAX_DECEL * dist) < 1] the
    speed is [min(0, nominal speed)].  At the stop position the computed
    velocity is below 1, so the speed there is [min(0, nominal speed)]: it
    is [0] when the nominal speed is not negative. *)
Theorem decelerated_speed_bounds (s c : Z) (h : Heap) (waypoints : list loc) :
  lane_in_heap h waypoints →
  (c ≤ s < c + Z.of_nat (length waypoints))%Z →
  ∃ h' out,
    decelerate_waypoints s h waypoints c = Ok (h', out) ∧
    length out = length waypoints ∧
    (∀ (i : nat) (p wp : loc),
       out !! i = Some p → waypoints !! i = Some wp →
       ∃ dist,
         distance h waypoints (Z.of_nat i) (stop_index s c) = Ok dist ∧
         (velocity_of h' p
          <= Rmin (sqrt (2 * MAX_DECEL * dist)) (velocity_of h wp))%R ∧
         ((sqrt (2 * MAX_DECEL * dist) < 1)%R →
          velocity_of h' p = Rmin 0 (velocity_of h wp))) ∧
    ∃ p wp,
      out !! Z.to_nat (stop_index s c) = Some p ∧
      waypoints !! Z.to_nat (stop_index s c) = Some wp ∧
      velocity_of h' p = Rmin 0 (velocity_of h wp) ∧
      ((0 <= velocity_of h wp)%R → velocity_of h' p = 0%R).
Proof.
  intros Hin Hs.
  pose proof (stop_index_in_window s c _ Hs) as Hstop.
  destruct (decelerate_waypoints_pointwise s c h waypoints Hin (or_intror Hstop))
    as (h' & out & Hrun & Hext & Hlen & Hout).
  exists h', out. split; [done|]. split; [done|]. split.
  - intros i p wp Hp Hwp.
    exists (arc_length h waypoints i (Z.to_nat (stop_index s c))).
    destruct (Hout i p wp Hp Hwp) as (_ & Hvel & _).
    split; [apply distance_to_stop; [apply stop_index_nonneg | done]|].
    rewrite Hvel. split.
    + apply decelerated_velocity_bound.
    + apply decelerated_velocity_snap.
  - destruct (lookup_lt_is_Some_2 waypoints (Z.to_nat (stop_index s c)))
      as [wp Hwp]; [done|].
    destruct (lookup_lt_is_Some_2 out (Z.to_nat (stop_index s c)))
      as [p Hp]; [lia|].
    exists p, wp. split; [done|]. split; [done|].
    destruct (Hout _ p wp Hp Hwp) as (_ & Hvel & _).
    rewrite Hvel, decelerated_velocity_past_stop by done.
    split; [done|]. intros Hpos. by apply Rmin_left.
Qed.

Lemma decelerated_speed_bounds_witness :
  lane_in_heap track3_heap track3 ∧
  (0 ≤ 2 < 0 + Z.of_nat (length track3))%Z ∧
  ∃ h' out,
    decelerate_waypoints 2 track3_heap track3 0 = Ok (h', out) ∧
    length out = length track3 ∧
    (∀ (i : nat) (p wp : loc),
       out !! i = Some p → track3 !! i = Some wp →
       ∃ dist,
         distance track3_heap track3 (Z.of_nat i) (stop_index 2 0) = Ok dist ∧
         (velocity_of h' p
          <= Rmin (sqrt (2 * MAX_DECEL * dist)) (velocity_of track3_heap wp))%R ∧
         ((sqrt (2 * MAX_DECEL * dist) < 1)%R →
          velocity_of h' p = Rmin 0 (velocity_of track3_heap wp))) ∧
    ∃ p wp,
      out !! Z.to_nat (stop_index 2 0) = Some p ∧
      track3 !! Z.to_nat (stop_index 2 0) = Some wp ∧
      velocity_of h' p = Rmin 0 (velocity_of track3_heap wp) ∧
      ((0 <= velocity_of track3_heap wp)%R → velocity_of h' p = 0%R).
Proof.
  split; [apply track3_in_heap|].
  split; [simpl; lia|].
  apply (decelerated_speed_bounds 2 0 track3_heap track3).
  - apply track3_in_heap.
  - simpl; lia.
Defined.

(** The speeds of [reverse_track] after [decelerate_waypoints], whenever
    the stop position is 0. *)
Lemma reverse_track_keeps_negative_speed (s : Z) :
  (s ≤ 2)%Z →
  ∃ h' out,
    decelerate_waypoints s reverse_heap reverse_track 0 = Ok (h', out) ∧
    velocities h' out = [(-1)%R].
Proof.
  intros Hs.
  destruct (decelerate_waypoints_stop_at_start s 0 reverse_heap reverse_track)
    as (h' & out & Hrun & _ & Hvel); [apply reverse_track_in_heap | lia |].
  exists h', out. split; [done|]. rewrite Hvel.
  change ((λ wp, Rmin 0 (velocity_of reverse_heap wp)) <$> reverse_track)
    with [Rmin 0 (-1)].
  by rewrite Rmin_right by lra.
Qed.

(** A window of one waypoint with nominal speed [-1] and the stop line on
    it: the stop position is 0, the computed velocity is [sqrt 0 < 1], and
    the speed given at the stop position is [-1], not [0]. *)
Lemma negative_nominal_speed_at_stop :
  (0 ≤ 0 < 0 + Z.of_nat (length reverse_track))%Z ∧
  Z.to_nat (stop_index 0 0) = 0 ∧
  distance reverse_heap reverse_track 0 (stop_index 0 0) = Ok 0%R ∧
  (sqrt (2 * MAX_DECEL * 0) < 1)%R ∧
  ∃ h' out,
    decelerate_waypoints 0 reverse_heap reverse_track 0 = Ok (h', out) ∧
    velocities h' out !! Z.to_nat (stop_index 0 0) = Some (-1)%R ∧
    velocities h' out !! Z.to_nat (stop_index 0 0) ≠ Some 0%R.
Proof.
  split; [simpl; lia|]. split; [reflexivity|]. split.
  { transitivity (Ok (arc_length reverse_heap reverse_track 0 0)); [|done].
    apply (distance_to_stop reverse_heap reverse_track 0 (stop_index 0 0));
      [apply stop_index_nonneg | change (0 < 1); lia]. }
  split.
  { replace (2 * MAX_DECEL * 0)%R with 0%R by ring. rewrite sqrt_0. lra. }
  destruct (reverse_track_keeps_negative_speed 0) as (h' & out & Hrun & Hvel);
    [lia|].
  exists h', out. split; [done|]. rewrite Hvel.
  split; [done|]. intros [= H]. lra.
Qed.

(** C9, amended: for a waypoint at position [i] of the window at or past
    the stop position (in particular when the stop line lies at or behind
    the vehicle and the stop position is 0), the distance computed is [0]
    and so is the velocity, and the speed given is [min(0, nominal speed)]:
    it is [0] when the nominal speed is not negative. *)
Theorem speed_at_or_past_stop (s c : Z) (h : Heap) (waypoints : list loc)
    (i : nat) (wp : loc) :
  lane_in_heap h waypoints →
  waypoints !! i = Some wp →
  Z.to_nat (stop_index s c) ≤ i →
  distance h waypoints (Z.of_nat i) (stop_index s c) = Ok 0%R ∧
  stop_velocity 0 = 0%R ∧
  ∃ h' out p,
    decelerate_waypoints s h waypoints c = Ok (h', out) ∧
    out !! i = Some p ∧
    velocity_of h' p = Rmin 0 (velocity_of h wp) ∧
    ((0 <= velocity_of h wp)%R → velocity_of h' p = 0%R).
Proof.
  intros Hin Hwp Hi.
  assert (i < length waypoints) as Hlt by (by eapply lookup_lt_Some).
  assert (Z.to_nat (stop_index s c) < length waypoints) as Hstop by lia.
  split.
  { rewrite distance_to_stop by (apply stop_index_nonneg || done).
    by rewrite arc_length_at_or_past_stop. }
  split; [apply stop_velocity_0|].
  destruct (decelerate_waypoints_pointwise s c h waypoints Hin (or_intror Hstop))
    as (h' & out & Hrun & Hext & Hlen & Hout).
  destruct (lookup_lt_is_Some_2 out i) as [p Hp]; [lia|].
  exists h', out, p. split; [done|]. split; [done|].
  destruct (Hout i p wp Hp Hwp) as (_ & Hvel & _).
  rewrite Hvel, decelerated_velocity_past_stop by done.
  split; [done|]. intros Hpos. by apply Rmin_left.
Qed.

Lemma speed_at_or_past_stop_witness :
  lane_in_heap track3_heap track3 ∧
  track3 !! 2 = Some 3%positive ∧
  Z.to_nat (stop_index 3 0) ≤ 2 ∧
  distance track3_heap track3 (Z.of_nat 2) (stop_index 3 0) = Ok 0%R ∧
  stop_velocity 0 = 0%R ∧
  ∃ h' out p,
    decelerate_waypoints 3 track3_heap track3 0 = Ok (h', out) ∧
    out !! 2 = Some p ∧
    velocity_of h' p = Rmin 0 (velocity_of track3_heap 3%positive) ∧
    ((0 <= velocity_of track3_heap 3%positive)%R → velocity_of h' p = 0%R).
Proof.
  split; [apply track3_in_heap|].
  split; [reflexivity|].
  split; [change (1 ≤ 2); lia|].
  apply (speed_at_or_past_stop 3 0 track3_heap track3 2 3%positive).
  - apply track3_in_heap.
  - reflexivity.
  - change (1 ≤ 2); lia.
Defined.

(** A window of one waypoint with nominal speed [-1] and the stop line
    three waypoints behind the vehicle: the stop position is 0, the
    waypoint at position 0 is at the stop position, and its speed is [-1],
    not [0]. *)
Lemma negative_nominal_speed_past_stop :
  reverse_track !! 0 = Some 1%positive ∧
  Z.to_nat (stop_index (-3) 0) ≤ 0 ∧
  ∃ h' out,
    decelerate_waypoints (-3) reverse_heap reverse_track 0 = Ok (h', out) ∧
    velocities h' out !! 0 = Some (-1)%R ∧
    velocities h' out !! 0 ≠ Some 0%R.
Proof.
  split; [reflexivity|]. split; [change (0 ≤ 0); lia|].
  destruct (reverse_track_keeps_negative_speed (-3)) as (h' & out & Hrun & Hvel);
    [lia|].
  exists h', out. split; [done|]. rewrite Hvel.
  split; [done|]. intros [= H]. lra.
Qed.

(** ** The input of [decelerate_waypoints] is left alone *)

(** C10: a call of [decelerate_waypoints] that returns has changed no
    object of the heap it was given: every pose object and every waypoint
    object is as before, the waypoints of the list it returns are all new
    objects, one for each waypoint of the window, and every lane of the old
    heap (the window, the base lane) reads the same speeds and poses as
    before the call. *)
Theorem decelerate_waypoints_frame (s c : Z) (h h' : Heap)
    (waypoints out : list loc) :
  decelerate_waypoints s h waypoints c = Ok (h', out) →
  pose_objs h' = pose_objs h ∧
  (∀ l, l ∈ dom (waypoint_objs h) → waypoint_objs h' !! l = waypoint_objs h !! l) ∧
  length out = length waypoints ∧
  (∀ p, p ∈ out → p ∉ dom (waypoint_objs h)) ∧
  ∀ lane, lane_in_heap h lane →
    velocities h' lane = velocities h lane ∧
    published h' lane = published h lane.
Proof.
  intros Hrun. unfold decelerate_waypoints in Hrun.
  apply decelerate_loop_frame in Hrun as (Hext & Hlen & Hnew).
  split; [by destruct Hext|]. split; [by destruct Hext|].
  split; [by rewrite Hlen|]. split.
  - intros p Hp. destruct (Hnew p Hp) as [Hnil|Hfresh]; [|done].
    by apply elem_of_nil in Hnil.
  - intros lane Hlane. split.
    + by apply heap_extends_velocities.
    + by apply heap_extends_published.
Qed.

Lemma decelerate_waypoints_frame_witness :
  ∃ h' out,
    decelerate_waypoints 4 track3_heap track3 0 = Ok (h', out) ∧
    pose_objs h' = pose_objs track3_heap ∧
    (∀ l, l ∈ dom (waypoint_objs track3_heap) →
          waypoint_objs h' !! l = waypoint_objs track3_heap !! l) ∧
    length out = length track3 ∧
    (∀ p, p ∈ out → p ∉ dom (waypoint_objs track3_heap)) ∧
    ∀ lane, lane_in_heap track3_heap lane →
      velocities h' lane = velocities track3_heap lane ∧
      published h' lane = published track3_heap lane.
Proof.
  destruct track3_deceleration_profile as (h' & out & Hrun & _).
  exists h', out. split; [exact Hrun|].
  apply (decelerate_waypoints_frame 4 0 track3_heap h' track3 out Hrun).
Defined.

(** A planning cycle leaves the speeds of the base lane as they were. *)
Lemma loop_body_keeps_base_lane {tree : Type} (query : tree → R * R → Z)
    (st : State tree) (h h' : Heap) (msg : option (list (PoseStamped * R)))
    (lane : list loc) :
  loop_body query st h = Ok (h', msg) →
  lane_in_heap h lane →
  velocities h' lane = velocities h lane.
Proof.
  intros Hrun Hlane. apply heap_extends_velocities; [|done].
  unfold loop_body in Hrun. destruct (ready st).
  - destruct (get_closest_waypoint_idx query st) as [c|]; [|done].
    cbn in Hrun. unfold publish_waypoint in Hrun.
    destruct (generate_lane query st h) as [[h1 out]|] eqn:Hgen; [|done].
    cbn in Hrun. injection Hrun as <- _.
    by eapply generate_lane_extends.
  - injection Hrun as <- _. apply heap_extends_refl.
Qed.

(** * Further properties of the code *)

(** ** [distance] *)

Lemma path_length_join (l1 l2 : list Point) (a : Point) :
  path_length (l1 ++ a :: l2)
  = (path_length (l1 ++ [a]) + path_length (a :: l2))%R.
Proof.
  induction l1 as [|b l1 IH].
  - cbn. destruct l2; lra.
  - destruct l1 as [|b' l1].
    + cbn. destruct l2; lra.
    + cbn [app path_length] in *. rewrite IH. lra.
Qed.

Lemma arc_length_split (h : Heap) (waypoints : list loc) (i j k : nat) :
  i ≤ j → j ≤ k → j < length waypoints →
  arc_length h waypoints i k
  = (arc_length h waypoints i j + arc_length h waypoints j k)%R.
Proof.
  intros Hij Hjk Hj. unfold arc_length.
  destruct (lookup_lt_is_Some_2 waypoints j) as [a Ha]; [done|].
  assert (take (k + 1 - i) (drop i waypoints)
          = take (j - i) (drop i waypoints) ++ a :: take (k - j) (drop (S j) waypoints))
    as E1.
  { replace (k + 1 - i) with ((j - i) + S (k - j)) by lia.
    rewrite <- take_take_drop. f_equal.
    rewrite drop_drop. replace (i + (j - i)) with j by lia.
    by rewrite (drop_S _ _ _ Ha). }
  assert (take (j + 1 - i) (drop i waypoints)
          = take (j - i) (drop i waypoints) ++ [a]) as E2.
  { replace (j + 1 - i) with (S (j - i)) by lia.
    apply take_S_r. rewrite lookup_drop. by replace (i + (j - i)) with j by lia. }
  assert (take (k + 1 - j) (drop j waypoints)
          = a :: take (k - j) (drop (S j) waypoints)) as E3.
  { replace (k + 1 - j) with (S (k - j)) by lia.
    by rewrite (drop_S _ _ _ Ha). }
  rewrite E1, E2, E3, !fmap_app. cbn [fmap list_fmap].
  apply path_length_join.
Qed.

(** X2: [distance] at its bounds.  With [wp2 < wp1] the loop does not run
    and the result is [0], whatever the list; with [wp1] in the list and
    [wp2] at or beyond its end the call raises [IndexError]; inside the
    list the result is not negative and is [0] from a waypoint to itself. *)
Theorem distance_bounds (h : Heap) (waypoints : list loc) (i j : nat) :
  i < length waypoints →
  (∀ wp1 wp2 : Z, (wp2 < wp1)%Z → distance h waypoints wp1 wp2 = Ok 0%R) ∧
  (length waypoints ≤ j →
   distance h waypoints (Z.of_nat i) (Z.of_nat j) = Raise IndexError) ∧
  (j < length waypoints →
   ∃ d, distance h waypoints (Z.of_nat i) (Z.of_nat j) = Ok d ∧ (0 <= d)%R) ∧
  distance h waypoints (Z.of_nat i) (Z.of_nat i) = Ok 0%R.
Proof.
  intros Hi. split; [|split; [|split]].
  - intros wp1 wp2 Hlt. by apply distance_past_stop.
  - intros Hj. by apply distance_overflow.
  - intros Hj. exists (arc_length h waypoints i j).
    split; [by apply distance_arc_length | apply arc_length_nonneg].
  - rewrite distance_arc_length by done.
    by rewrite arc_length_at_or_past_stop.
Qed.

Lemma distance_bounds_witness :
  1 < length track3 ∧
  (∀ wp1 wp2 : Z, (wp2 < wp1)%Z → distance track3_heap track3 wp1 wp2 = Ok 0%R) ∧
  (length track3 ≤ 5 →
   distance track3_heap track3 (Z.of_nat 1) (Z.of_nat 5) = Raise IndexError) ∧
  (5 < length track3 →
   ∃ d, distance track3_heap track3 (Z.of_nat 1) (Z.of_nat 5) = Ok d ∧ (0 <= d)%R) ∧
  distance track3_heap track3 (Z.of_nat 1) (Z.of_nat 1) = Ok 0%R.
Proof.
  split; [simpl; lia|].
  apply (distance_bounds track3_heap track3 1 5). simpl; lia.
Defined.

(** ** [decelerate_waypoints] *)

Lemma arc_length_antitone (h : Heap) (waypoints : list loc) (i j s : nat) :
  i ≤ j → s < length waypoints →
  (arc_length h waypoints j s <= arc_length h waypoints i s)%R.
Proof.
  intros Hij Hs. destruct (decide (j ≤ s)) as [Hjs|Hjs].
  - rewrite (arc_length_split h waypoints i j s) by lia.
    pose proof (arc_length_nonneg h waypoints i j). lra.
  - rewrite (arc_length_at_or_past_stop h waypoints j s) by lia.
    apply arc_length_nonneg.
Qed.

Lemma stop_velocity_mono (d1 d2 : R) :
  (d1 <= d2)%R → (stop_velocity d1 <= stop_velocity d2)%R.
Proof.
  intros Hd. unfold stop_velocity.
  assert (sqrt (2 * MAX_DECEL * d1) <= sqrt (2 * MAX_DECEL * d2))%R as Hs.
  { apply sqrt_le_1_alt. unfold MAX_DECEL. lra. }
  pose proof (sqrt_pos (2 * MAX_DECEL * d2)).
  destruct (Rlt_dec _ 1), (Rlt_dec _ 1); lra.
Qed.

Lemma stop_velocity_range (d : R) :
  stop_velocity d = 0%R ∨ (1 <= stop_velocity d)%R.
Proof. unfold stop_velocity. destruct (Rlt_dec _ 1); [by left | right; lra]. Qed.

Lemma stop_velocity_nonneg (d : R) : (0 <= stop_velocity d)%R.
Proof. destruct (stop_velocity_range d) as [->|?]; lra. Qed.

(** X4: the speeds [decelerate_waypoints] gives never rise along the
    window as long as the nominal speeds do not: for positions [i <= j]
    whose nominal speeds satisfy [nominal j <= nominal i], the speed given
    at [j] is at most the speed given at [i]. *)
Theorem decelerated_speeds_do_not_rise (s c : Z) (h : Heap) (waypoints : list loc) :
  lane_in_heap h waypoints →
  Z.to_nat (stop_index s c) < length waypoints →
  ∃ h' out,
    decelerate_waypoints s h waypoints c = Ok (h', out) ∧
    ∀ (i j : nat) (pi pj wi wj : loc),
      i ≤ j →
      out !! i = Some pi → out !! j = Some pj →
      waypoints !! i = Some wi → waypoints !! j = Some wj →
      (velocity_of h wj <= velocity_of h wi)%R →
      (velocity_of h' pj <= velocity_of h' pi)%R.
Proof.
  intros Hin Hstop.
  destruct (decelerate_waypoints_pointwise s c h waypoints Hin (or_intror Hstop))
    as (h' & out & Hrun & _ & _ & Hout).
  exists h', out. split; [done|].
  intros i j pi pj wi wj Hij Hpi Hpj Hwi Hwj Hnom.
  destruct (Hout i pi wi Hpi Hwi) as (_ & -> & _).
  destruct (Hout j pj wj Hpj Hwj) as (_ & -> & _).
  unfold decelerated_velocity. rewrite !py_min_Rmin.
  pose proof (stop_velocity_mono _ _
                (arc_length_antitone h waypoints i j _ Hij Hstop)) as Hv.
  apply Rmin_glb.
  - etransitivity; [apply Rmin_l | exact Hv].
  - etransitivity; [apply Rmin_r | exact Hnom].
Qed.

Lemma decelerated_speeds_do_not_rise_witness :
  lane_in_heap track3_heap track3 ∧
  Z.to_nat (stop_index 4 0) < length track3 ∧
  ∃ h' out,
    decelerate_waypoints 4 track3_heap track3 0 = Ok (h', out) ∧
    ∀ (i j : nat) (pi pj wi wj : loc),
      i ≤ j →
      out !! i = Some pi → out !! j = Some pj →
      track3 !! i = Some wi → track3 !! j = Some wj →
      (velocity_of track3_heap wj <= velocity_of track3_heap wi)%R →
      (velocity_of h' pj <= velocity_of h' pi)%R.
Proof.
  split; [apply track3_in_heap|]. split; [change (2 < 3); lia|].
  apply (decelerated_speeds_do_not_rise 4 0 track3_heap track3).
  - apply track3_in_heap.
  - change (2 < 3); lia.
Defined.

(** X5: every speed [decelerate_waypoints] gives is at most the nominal
    speed of its waypoint, and it is [0], or at least [1], or the nominal
    speed itself; for a nominal speed that is not negative it is not
    negative either. *)
Theorem decelerated_speed_range (s c : Z) (h : Heap) (waypoints : list loc) :
  lane_in_heap h waypoints →
  Z.to_nat (stop_index s c) < length waypoints →
  ∃ h' out,
    decelerate_waypoints s h waypoints c = Ok (h', out) ∧
    ∀ (i : nat) (p wp : loc),
      out !! i = Some p → waypoints !! i = Some wp →
      (velocity_of h' p <= velocity_of h wp)%R ∧
      (velocity_of h' p = 0%R ∨ (1 <= velocity_of h' p)%R ∨
       velocity_of h' p = velocity_of h wp) ∧
      ((0 <= velocity_of h wp)%R → (0 <= velocity_of h' p)%R).
Proof.
  intros Hin Hstop.
  destruct (decelerate_waypoints_pointwise s c h waypoints Hin (or_intror Hstop))
    as (h' & out & Hrun & _ & _ & Hout).
  exists h', out. split; [done|].
  intros i p wp Hp Hwp.
  destruct (Hout i p wp Hp Hwp) as (_ & -> & _).
  set (d := arc_length h waypoints i (Z.to_nat (stop_index s c))).
  unfold decelerated_velocity. fold d. rewrite py_min_Rmin.
  pose proof (stop_velocity_range d) as Hrange.
  split; [apply Rmin_r|]. split.
  - unfold Rmin. destruct (Rle_dec _ _); [|by right; right].
    destruct Hrange as [->|?]; [by left | by right; left].
  - intros Hnom. apply Rmin_glb; [apply stop_velocity_nonneg | done].
Qed.

Lemma decelerated_speed_range_witness :
  lane_in_heap track3_heap track3 ∧
  Z.to_nat (stop_index 4 0) < length track3 ∧
  ∃ h' out,
    decelerate_waypoints 4 track3_heap track3 0 = Ok (h', out) ∧
    ∀ (i : nat) (p wp : loc),
      out !! i = Some p → track3 !! i = Some wp →
      (velocity_of h' p <= velocity_of track3_heap wp)%R ∧
      (velocity_of h' p = 0%R ∨ (1 <= velocity_of h' p)%R ∨
       velocity_of h' p = velocity_of track3_heap wp) ∧
      ((0 <= velocity_of track3_heap wp)%R → (0 <= velocity_of h' p)%R).
Proof.
  split; [apply track3_in_heap|]. split; [change (2 < 3); lia|].
  apply (decelerated_speed_range 4 0 track3_heap track3).
  - apply track3_in_heap.
  - change (2 < 3); lia.
Defined.

(** X6: each waypoint [decelerate_waypoints] returns refers to the very
    pose object of the waypoint it stands for, so the lane it returns
    carries the poses of the window, in order. *)
Theorem decelerated_waypoints_share_poses (s c : Z) (h : Heap) (waypoints : list loc) :
  lane_in_heap h waypoints →
  Z.to_nat (stop_index s c) < length waypoints →
  ∃ h' out,
    decelerate_waypoints s h waypoints c = Ok (h', out) ∧
    (∀ (i : nat) (p wp : loc),
       out !! i = Some p → waypoints !! i = Some wp →
       wp_pose (waypoint_at h' p) = wp_pose (waypoint_at h wp)) ∧
    (published h' out).*1 = (published h waypoints).*1.
Proof.
  intros Hin Hstop.
  destruct (decelerate_waypoints_spec s c h waypoints Hin (or_intror Hstop))
    as (h' & out & Hrun & Hext & Hlen & Hout).
  exists h', out. split; [done|]. split.
  - intros i p wp Hp Hwp.
    destruct (Hout i p Hp) as (_ & wp' & Hwp' & Hlook).
    assert (wp' = wp) as -> by congruence.
    unfold waypoint_at at 1. by rewrite lookup_total_alt, Hlook.
  - unfold published. rewrite <- !list_fmap_compose.
    apply (list_eq_same_length _ _ (length waypoints)).
    + by rewrite length_fmap.
    + by rewrite length_fmap.
    + intros i x y Hi Hx Hy.
      rewrite list_lookup_fmap in Hx. rewrite list_lookup_fmap in Hy.
      destruct (out !! i) as [p|] eqn:Hp; [|done].
      destruct (waypoints !! i) as [wp|] eqn:Hwp; [|done].
      injection Hx as <-. injection Hy as <-. cbn.
      destruct (Hout i p Hp) as (_ & wp' & Hwp' & Hlook).
      assert (wp' = wp) as -> by congruence.
      unfold pose_of, waypoint_at.
      rewrite (lookup_total_alt (waypoint_objs h') p), Hlook. cbn.
      destruct Hext as [E _]. by rewrite E.
Qed.

Lemma decelerated_waypoints_share_poses_witness :
  lane_in_heap track3_heap track3 ∧
  Z.to_nat (stop_index 4 0) < length track3 ∧
  ∃ h' out,
    decelerate_waypoints 4 track3_heap track3 0 = Ok (h', out) ∧
    (∀ (i : nat) (p wp : loc),
       out !! i = Some p → track3 !! i = Some wp →
       wp_pose (waypoint_at h' p) = wp_pose (waypoint_at track3_heap wp)) ∧
    (published h' out).*1 = (published track3_heap track3).*1.
Proof.
  split; [apply track3_in_heap|]. split; [change (2 < 3); lia|].
  apply (decelerated_waypoints_share_poses 4 0 track3_heap track3).
  - apply track3_in_heap.
  - change (2 < 3); lia.
Defined.

(** ** [generate_lane], [publish_waypoint] and [loop] *)

Lemma py_slice_length_le {A} (l : list A) (a k : Z) :
  (0 ≤ k)%Z → length (py_slice l a (a + k)) ≤ Z.to_nat k.
Proof.
  intros Hk. unfold py_slice, py_clamp. rewrite length_take, length_drop.
  destruct (Z.ltb_spec a 0), (Z.ltb_spec (a + k) 0); lia.
Qed.

Lemma py_slice_past_end {A} (l : list A) (a b : Z) :
  (Z.of_nat (length l) ≤ a)%Z → py_slice l a b = [].
Proof.
  intros Ha. unfold py_slice, py_clamp.
  destruct (Z.ltb_spec a 0); [lia|].
  rewrite drop_ge by lia. apply take_nil.
Qed.

Section Cycle.
Context {tree : Type}.
Variable query : tree → R * R → Z.

(** X7: with the closest index [c] inside a base lane of [N] waypoints and
    a stop-line index [s] other than [-1] and below [c + LOOKAHEAD_WPS],
    [generate_lane] raises [IndexError] when [s >= N + 2], and returns a
    lane as long as the window when [s < N + 2]. *)
Theorem generate_lane_raises_beyond_lane (st : State tree) (h : Heap)
    (c : Z) (lane : list loc) :
  get_closest_waypoint_idx query st = Ok c →
  base_lane st = Some lane → lane_in_heap h lane →
  (0 ≤ c < Z.of_nat (length lane))%Z →
  stopline_wp_idx st ≠ (-1)%Z →
  (stopline_wp_idx st < c + LOOKAHEAD_WPS)%Z →
  ((Z.of_nat (length lane) + 2 ≤ stopline_wp_idx st)%Z →
   generate_lane query st h = Raise IndexError) ∧
  ((stopline_wp_idx st < Z.of_nat (length lane) + 2)%Z →
   ∃ h' out,
     generate_lane query st h = Ok (h', out) ∧
     length out = length (base_lane_waypoints lane c)).
Proof.
  intros Hc Hlane Hin Hrange Hne Hlt.
  rewrite (generate_lane_decelerates query st h c lane Hc Hlane Hne Hlt).
  assert (Z.of_nat (length (base_lane_waypoints lane c))
          = Z.min LOOKAHEAD_WPS (Z.of_nat (length lane) - c)) as Hlen.
  { rewrite base_lane_waypoints_take_drop by lia.
    rewrite length_take, length_drop. unfold LOOKAHEAD_WPS. lia. }
  unfold LOOKAHEAD_WPS in *. split.
  - intros Hfar. apply decelerate_waypoints_overflow.
    + intros E. rewrite E in Hlen. cbn in Hlen. lia.
    + unfold stop_index. lia.
  - intros Hnear.
    destruct (decelerate_waypoints_spec (stopline_wp_idx st) c h
                (base_lane_waypoints lane c))
      as (h' & out & Hrun & _ & Hout & _).
    + by apply lane_in_heap_slice.
    + right. unfold stop_index. lia.
    + by exists h', out.
Qed.

(** X8: a round of [loop] that publishes sends at most [LOOKAHEAD_WPS]
    waypoints, with or without a stop line. *)
Theorem loop_body_publishes_at_most_lookahead (st : State tree) (h h' : Heap)
    (msg : list (PoseStamped * R)) :
  loop_body query st h = Ok (h', Some msg) →
  (Z.of_nat (length msg) ≤ LOOKAHEAD_WPS)%Z.
Proof.
  unfold loop_body, publish_waypoint, generate_lane.
  destruct (ready st); [|done].
  destruct (get_closest_waypoint_idx query st) as [c|]; [|done].
  destruct (base_lane st) as [lane|]; [|done]. cbn.
  pose proof (py_slice_length_le lane c LOOKAHEAD_WPS) as Hlen.
  assert (length (base_lane_waypoints lane c) ≤ 200) as Hw
    by (apply Hlen; unfold LOOKAHEAD_WPS; lia).
  destruct (_ || _).
  - cbn. intros [= _ <-]. unfold published. rewrite length_fmap.
    unfold LOOKAHEAD_WPS. lia.
  - destruct (decelerate_waypoints _ _ _ _) as [[h1 out]|] eqn:Hrun; [|done].
    cbn. intros [= _ <-]. unfold published. rewrite length_fmap.
    unfold decelerate_waypoints in Hrun.
    apply decelerate_loop_frame in Hrun as (_ & Hout & _).
    cbn in Hout. unfold LOOKAHEAD_WPS. lia.
Qed.

(** X9: when the closest index is at or beyond the end of the base lane
    the window is empty, and [generate_lane] returns an empty lane and
    leaves the heap alone, whatever the stop-line index. *)
Theorem generate_lane_past_end (st : State tree) (h : Heap)
    (c : Z) (lane : list loc) :
  get_closest_waypoint_idx query st = Ok c →
  base_lane st = Some lane →
  (Z.of_nat (length lane) ≤ c)%Z →
  generate_lane query st h = Ok (h, []).
Proof.
  intros Hc Hlane Hend. unfold generate_lane. rewrite Hc, Hlane. cbn.
  unfold base_lane_waypoints. rewrite py_slice_past_end by done.
  by destruct (_ || _).
Qed.

Lemma get_closest_waypoint_idx_answer (st : State tree) (msg : PoseStamped)
    (t : tree) (w2d : list (R * R)) :
  pose st = Some msg → waypoint_tree st = Some t →
  waypoints_2d st = Some w2d →
  let q := query t (p_x (position (ps_pose msg)), p_y (position (ps_pose msg))) in
  (0 ≤ q < Z.of_nat (length w2d))%Z →
  ∃ c, get_closest_waypoint_idx query st = Ok c ∧
       (0 ≤ c < Z.of_nat (length w2d))%Z ∧
       (c = q ∨ c = ((q + 1) `mod` Z.of_nat (length w2d))%Z) ∧
       (c ≠ q → q = (Z.of_nat (length w2d) - 1)%Z → c = 0%Z).
Proof.
  intros Hp Ht Hw q Hq.
  unfold get_closest_waypoint_idx. rewrite Hp, Ht, Hw. cbn. fold q.
  destruct (lookup_lt_is_Some_2 w2d (Z.to_nat q)) as [C HC]; [lia|].
  rewrite (py_index_eval w2d q (Z.to_nat q) C); [|  | done].
  2:{ destruct (Z.ltb_spec q 0); lia. }
  cbn.
  destruct (py_index w2d (q - 1)) as [prev|] eqn:Hprev.
  2:{ exfalso. unfold py_index in Hprev.
      destruct (Z.ltb_spec (q - 1) 0) as [Hneg|Hpos].
      - destruct (Z.ltb_spec (q - 1 + Z.of_nat (length w2d)) 0); [lia|].
        destruct (lookup_lt_is_Some_2 w2d
                    (Z.to_nat (q - 1 + Z.of_nat (length w2d)))) as [x Hx]; [lia|].
        by rewrite Hx in Hprev.
      - destruct (Z.ltb_spec (q - 1) 0); [lia|].
        destruct (lookup_lt_is_Some_2 w2d (Z.to_nat (q - 1))) as [x Hx]; [lia|].
        by rewrite Hx in Hprev. }
  cbn. destruct (Rlt_dec 0 _).
  - destruct (Z.eqb_spec (Z.of_nat (length w2d)) 0); [lia|].
    eexists. split; [done|].
    pose proof (Z.mod_pos_bound (q + 1) (Z.of_nat (length w2d))).
    split; [lia|]. split; [by right|].
    intros _ ->. replace (Z.of_nat (length w2d) - 1 + 1)%Z
      with (Z.of_nat (length w2d)) by lia.
    apply Z_mod_same_full.
  - exists q. split; [done|]. split; [done|]. split; [by left|]. done.
Qed.

(** X10: when the tree answers an index [q] of the coordinate list,
    [get_closest_waypoint_idx] returns, and what it returns is [q] or
    [(q + 1) mod N]: an index of the list again, [0] after the last one. *)
Theorem get_closest_waypoint_idx_in_range (st : State tree) (msg : PoseStamped)
    (t : tree) (w2d : list (R * R)) :
  pose st = Some msg → waypoint_tree st = Some t →
  waypoints_2d st = Some w2d →
  let q := query t (p_x (position (ps_pose msg)), p_y (position (ps_pose msg))) in
  (0 ≤ q < Z.of_nat (length w2d))%Z →
  ∃ c, get_closest_waypoint_idx query st = Ok c ∧
       (0 ≤ c < Z.of_nat (length w2d))%Z ∧
       (c = q ∨ c = ((q + 1) `mod` Z.of_nat (length w2d))%Z) ∧
       (c ≠ q → q = (Z.of_nat (length w2d) - 1)%Z → c = 0%Z).
Proof. apply get_closest_waypoint_idx_answer. Qed.

(** [generate_lane] returns whenever the locator does and the stop-line
    index is [-1] or below [N + 2]. *)
Lemma generate_lane_returns (st : State tree) (h : Heap) (c : Z) (lane : list loc) :
  get_closest_waypoint_idx query st = Ok c → (0 ≤ c)%Z →
  base_lane st = Some lane → lane_in_heap h lane →
  stopline_wp_idx st = (-1)%Z ∨
  (stopline_wp_idx st < Z.of_nat (length lane) + 2)%Z →
  ∃ h' out, generate_lane query st h = Ok (h', out).
Proof.
  intros Hc Hpos Hlane Hin Hstop.
  unfold generate_lane. rewrite Hc, Hlane. cbn.
  destruct (_ || _) eqn:Hbranch; [by eexists _, _|].
  apply orb_false_iff in Hbranch as [Hne Hlt].
  apply Z.eqb_neq in Hne. apply Z.leb_gt in Hlt.
  destruct Hstop as [?|Hnear]; [done|].
  destruct (decelerate_waypoints_spec (stopline_wp_idx st) c h
              (base_lane_waypoints lane c))
    as (h' & out & Hrun & _); [by apply lane_in_heap_slice | | by exists h', out].
  destruct (decide (base_lane_waypoints lane c = [])) as [|Hne']; [by left|].
  right.
  assert (Z.of_nat (length (base_lane_waypoints lane c))
          = Z.min LOOKAHEAD_WPS (Z.of_nat (length lane) - c) ∨
          base_lane_waypoints lane c = []) as [Hlen|?]; [| |done].
  { rewrite base_lane_waypoints_take_drop by lia.
    destruct (decide (Z.of_nat (length lane) ≤ c)%Z).
    - right. rewrite drop_ge by lia. apply take_nil.
    - left. rewrite length_take, length_drop. unfold LOOKAHEAD_WPS. lia. }
  assert (0 < length (base_lane_waypoints lane c)).
  { destruct (base_lane_waypoints lane c); [done | cbn; lia]. }
  unfold stop_index, LOOKAHEAD_WPS in *. lia.
Qed.
End Cycle.

(** ** The cycle on concrete runs *)

Lemma track3_round_without_stop :
  loop_body scan_query (track3_state 0 (-1)) track3_heap
  = Ok (track3_heap, Some (published track3_heap track3)).
Proof.
  unfold loop_body, publish_waypoint, generate_lane.
  change (ready (track3_state 0 (-1))) with true. cbv iota.
  rewrite track3_closest_at_start. reflexivity.
Qed.

Lemma shortened_state_closest :
  get_closest_waypoint_idx scan_query shortened_state = Ok 2%Z.
Proof.
  change shortened_state
    with {| pose := Some (pose_at 9 0 0); base_lane := Some [1%positive];
            stopline_wp_idx := -1;
            waypoints_2d := Some [(0, 0); (5, 0); (9, 0)]%R;
            waypoint_tree := Some [(0, 0); (5, 0); (9, 0)]%R |}.
  unfold get_closest_waypoint_idx. cbn. decide_reals.
  change (1 + 1)%Z with 2%Z.
  erewrite (py_index_eval _ 2%Z 2) by reflexivity.
  erewrite (py_index_eval _ (2 - 1)%Z 1) by reflexivity.
  cbn. decide_reals. reflexivity.
Qed.

Lemma generate_lane_raises_beyond_lane_witness :
  get_closest_waypoint_idx scan_query (track3_state 0 7) = Ok 0%Z ∧
  base_lane (track3_state 0 7) = Some track3 ∧
  lane_in_heap track3_heap track3 ∧
  (0 ≤ 0 < Z.of_nat (length track3))%Z ∧
  stopline_wp_idx (track3_state 0 7) ≠ (-1)%Z ∧
  (stopline_wp_idx (track3_state 0 7) < 0 + LOOKAHEAD_WPS)%Z ∧
  ((Z.of_nat (length track3) + 2 ≤ stopline_wp_idx (track3_state 0 7))%Z →
   generate_lane scan_query (track3_state 0 7) track3_heap = Raise IndexError) ∧
  ((stopline_wp_idx (track3_state 0 7) < Z.of_nat (length track3) + 2)%Z →
   ∃ h' out,
     generate_lane scan_query (track3_state 0 7) track3_heap = Ok (h', out) ∧
     length out = length (base_lane_waypoints track3 0)).
Proof.
  split; [apply track3_closest_at_start|]. split; [reflexivity|].
  split; [apply track3_in_heap|]. split; [simpl; lia|].
  split; [simpl; lia|]. split; [simpl; unfold LOOKAHEAD_WPS; lia|].
  apply (generate_lane_raises_beyond_lane scan_query (track3_state 0 7)
           track3_heap 0 track3).
  - apply track3_closest_at_start.
  - reflexivity.
  - apply track3_in_heap.
  - simpl; lia.
  - simpl; lia.
  - simpl; unfold LOOKAHEAD_WPS; lia.
Defined.

Lemma loop_body_publishes_at_most_lookahead_witness :
  loop_body scan_query (track3_state 0 (-1)) track3_heap
  = Ok (track3_heap, Some (published track3_heap track3)) ∧
  (Z.of_nat (length (published track3_heap track3)) ≤ LOOKAHEAD_WPS)%Z.
Proof.
  split; [apply track3_round_without_stop|].
  apply (loop_body_publishes_at_most_lookahead scan_query (track3_state 0 (-1))
           track3_heap track3_heap (published track3_heap track3)).
  apply track3_round_without_stop.
Defined.

Lemma generate_lane_past_end_witness :
  get_closest_waypoint_idx scan_query shortened_state = Ok 2%Z ∧
  base_lane shortened_state = Some [1%positive] ∧
  (Z.of_nat (length [1%positive]) ≤ 2)%Z ∧
  generate_lane scan_query shortened_state track3_heap = Ok (track3_heap, []).
Proof.
  split; [apply shortened_state_closest|]. split; [reflexivity|].
  split; [simpl; lia|].
  apply (generate_lane_past_end scan_query shortened_state track3_heap 2
           [1%positive]).
  - apply shortened_state_closest.
  - reflexivity.
  - simpl; lia.
Defined.

Lemma track3_query_at_start :
  scan_query [(0, 0); (5, 0); (9, 0)]%R (0, 0)%R = 0%Z.
Proof. cbn. decide_reals. reflexivity. Qed.

Lemma get_closest_waypoint_idx_in_range_witness :
  pose (track3_state 0 (-1)) = Some (pose_at 0 0 0) ∧
  waypoint_tree (track3_state 0 (-1)) = Some [(0, 0); (5, 0); (9, 0)]%R ∧
  waypoints_2d (track3_state 0 (-1)) = Some [(0, 0); (5, 0); (9, 0)]%R ∧
  (0 ≤ scan_query [(0, 0); (5, 0); (9, 0)]%R (0, 0)%R < 3)%Z ∧
  ∃ c, get_closest_waypoint_idx scan_query (track3_state 0 (-1)) = Ok c ∧
       (0 ≤ c < 3)%Z ∧
       (c = scan_query [(0, 0); (5, 0); (9, 0)]%R (0, 0)%R ∨
        c = ((scan_query [(0, 0); (5, 0); (9, 0)]%R (0, 0)%R + 1) `mod` 3)%Z) ∧
       (c ≠ scan_query [(0, 0); (5, 0); (9, 0)]%R (0, 0)%R →
        scan_query [(0, 0); (5, 0); (9, 0)]%R (0, 0)%R = (3 - 1)%Z → c = 0%Z).
Proof.
  split; [reflexivity|]. split; [reflexivity|]. split; [reflexivity|].
  split; [rewrite track3_query_at_start; lia|].
  apply (get_closest_waypoint_idx_in_range scan_query (track3_state 0 (-1))
           (pose_at 0 0 0) [(0, 0); (5, 0); (9, 0)]%R [(0, 0); (5, 0); (9, 0)]%R);
    [reflexivity | reflexivity | reflexivity |].
  change (p_x (position (ps_pose (pose_at 0 0 0)))) with 0%R.
  change (p_y (position (ps_pose (pose_at 0 0 0)))) with 0%R.
  rewrite track3_query_at_start. simpl. lia.
Defined.

(** ** Runs of the node *)

Lemma scan_nearest_range (q : R * R) (pts : list (R * R)) (i best : Z) (d : R) :
  (0 ≤ best < i)%Z →
  (0 ≤ scan_nearest q pts i best d < i + Z.of_nat (length pts))%Z.
Proof.
  revert i best d. induction pts as [|p pts IH]; intros i best d Hb.
  - cbn. lia.
  - cbn [scan_nearest length]. destruct (Rlt_dec _ _).
    + pose proof (IH (i + 1)%Z i (sq_dist p q)). lia.
    + pose proof (IH (i + 1)%Z best d). lia.
Qed.

(** The linear scan answers an index of the list it was built from. *)
Lemma scan_query_valid (t w2d : list (R * R)) (p : R * R) :
  scan_KDTree w2d = Ok t → (0 ≤ scan_query t p < Z.of_nat (length w2d))%Z.
Proof.
  destruct w2d as [|a w2d]; [done|]. intros [= <-].
  unfold scan_query.
  pose proof (scan_nearest_range p w2d 1 0 (sq_dist a p)). cbn [length]. lia.
Qed.

Section RunProperties.
Context {tree : Type}.
Variable KDTree : list (R * R) → result tree.
Variable query : tree → R * R → Z.

Lemma waypoints_cb_keeps_index_invariant (e : exn) (st : State tree) (h : Heap)
    (waypoints : list loc) :
  KDTree [] = Raise e →
  (∀ t, waypoint_tree st = Some t →
        ∃ w2d, waypoints_2d st = Some w2d ∧ w2d ≠ [] ∧ KDTree w2d = Ok t) →
  ∀ t, waypoint_tree (waypoints_cb KDTree st h waypoints).1 = Some t →
       ∃ w2d, waypoints_2d (waypoints_cb KDTree st h waypoints).1 = Some w2d ∧
              w2d ≠ [] ∧ KDTree w2d = Ok t.
Proof.
  intros Hnil Hinv t. unfold waypoints_cb.
  destruct (list_truthy (waypoints_2d st)) eqn:Htruthy; [apply Hinv|].
  destruct (KDTree (coordinates_2d h waypoints)) as [t'|e'] eqn:HK; cbn.
  - intros [= <-]. exists (coordinates_2d h waypoints).
    split; [done|]. split; [|done]. intros E. rewrite E in HK. congruence.
  - intros Ht. destruct (Hinv t Ht) as (w2d & Hw & Hne & _).
    rewrite Hw in Htruthy. by destruct w2d.
Qed.

Lemma foldl_deliver_index (e : exn) (ds : list delivery) :
  KDTree [] = Raise e →
  ∀ t, waypoint_tree (foldl (deliver KDTree) init ds) = Some t →
       ∃ w2d, waypoints_2d (foldl (deliver KDTree) init ds) = Some w2d ∧
              w2d ≠ [] ∧ KDTree w2d = Ok t.
Proof.
  intros Hnil. induction ds as [|d ds IH] using rev_ind; [done|].
  rewrite foldl_snoc. destruct d as [ev|h waypoints]; cbn [deliver].
  - rewrite handle_waypoint_tree, handle_waypoints_2d. apply IH.
  - by apply (waypoints_cb_keeps_index_invariant e).
Qed.

Lemma foldl_deliver_base_lane (ds : list delivery) :
  is_Some (waypoints_2d (foldl (deliver KDTree) init ds)) →
  is_Some (base_lane (foldl (deliver KDTree) init ds)).
Proof.
  induction ds as [|d ds IH] using rev_ind; [by intros [? ?]|].
  rewrite foldl_snoc. destruct d as [ev|h waypoints]; cbn [deliver].
  - rewrite handle_waypoints_2d, handle_base_lane. apply IH.
  - intros _. rewrite waypoints_cb_base_lane. by eexists.
Qed.

(** X11: when the constructor of the tree rejects an empty list, every
    state of the node that holds a tree also holds a non-empty coordinate
    list and a base lane, and the tree is the one the constructor makes
    of that coordinate list. *)
Theorem reachable_tree_built_from_coordinates (e : exn) (st : State tree) (t : tree) :
  KDTree [] = Raise e →
  reachable KDTree st →
  waypoint_tree st = Some t →
  ∃ w2d, waypoints_2d st = Some w2d ∧ w2d ≠ [] ∧ KDTree w2d = Ok t ∧
         is_Some (base_lane st).
Proof.
  intros Hnil [ds ->] Ht.
  destruct (foldl_deliver_index e ds Hnil t Ht) as (w2d & Hw & Hne & HK).
  exists w2d. split; [done|]. split; [done|]. split; [done|].
  apply foldl_deliver_base_lane. rewrite Hw. by eexists.
Qed.

(** X12: when the tree of a coordinate list always answers an index of
    that list, then in every state of the node that passes the guard of
    [loop] the locator returns an index of the coordinate list, and the
    round publishes, not raising, for every stop-line index that is [-1]
    or below [N + 2], [N] being the length of the base lane. *)
Theorem reachable_round_publishes (st : State tree) :
  (∀ t w2d p, KDTree w2d = Ok t → (0 ≤ query t p < Z.of_nat (length w2d))%Z) →
  reachable KDTree st →
  ready st = true →
  (∃ c w2d, waypoints_2d st = Some w2d ∧
            get_closest_waypoint_idx query st = Ok c ∧
            (0 ≤ c < Z.of_nat (length w2d))%Z) ∧
  ∀ (h : Heap) (lane : list loc),
    base_lane st = Some lane → lane_in_heap h lane →
    stopline_wp_idx st = (-1)%Z ∨
    (stopline_wp_idx st < Z.of_nat (length lane) + 2)%Z →
    ∃ h' msg, loop_body query st h = Ok (h', Some msg).
Proof.
  intros Hquery [ds ->] Hready.
  set (st := foldl (deliver KDTree) init ds) in *.
  assert (∃ e, KDTree [] = Raise e) as [e Hnil].
  { destruct (KDTree []) as [t|e] eqn:E; [|by exists e].
    specialize (Hquery t [] (0%R, 0%R) E). cbn in Hquery. lia. }
  unfold ready in Hready.
  apply andb_true_iff in Hready as [Hready Htree].
  apply andb_true_iff in Hready as [Hpose _].
  apply bool_decide_eq_true in Htree as [t Ht].
  apply bool_decide_eq_true in Hpose as [msg Hmsg].
  destruct (foldl_deliver_index e ds Hnil t Ht) as (w2d & Hw & Hne & HK).
  fold st in Hw.
  destruct (get_closest_waypoint_idx_answer query st msg t w2d Hmsg Ht Hw
              (Hquery t w2d _ HK)) as (c & Hc & Hrange & _).
  split; [by exists c, w2d|].
  intros h lane Hlane Hin Hstop.
  destruct (generate_lane_returns query st h c lane Hc (proj1 Hrange) Hlane Hin Hstop)
    as (h' & out & Hgen).
  exists h', (published h' out).
  unfold loop_body, ready. rewrite Hmsg, Ht, Hlane.
  rewrite !bool_decide_eq_true_2 by (by eexists). cbn.
  rewrite Hc. cbn. unfold publish_waypoint. by rewrite Hgen.
Qed.

(** X13: pose, stop-line and obstacle messages never touch the base lane,
    the coordinate list or the tree; after any number of them the stop-line
    index is the data of the last stop-line message and the pose is the
    last pose message, or what they were when there was none. *)
Theorem events_latest_value_wins (st : State tree) (evs : list event) :
  base_lane (foldl handle st evs) = base_lane st ∧
  waypoints_2d (foldl handle st evs) = waypoints_2d st ∧
  waypoint_tree (foldl handle st evs) = waypoint_tree st ∧
  stopline_wp_idx (foldl handle st evs)
  = default (stopline_wp_idx st) (last_traffic evs) ∧
  pose (foldl handle st evs)
  = match last_pose evs with Some msg => Some msg | None => pose st end.
Proof.
  induction evs as [|ev evs IH] using rev_ind; [done|].
  destruct IH as (Hb & Hw & Ht & Hs & Hp).
  rewrite foldl_snoc, handle_base_lane, handle_waypoints_2d, handle_waypoint_tree.
  split; [done|]. split; [done|]. split; [done|].
  unfold last_traffic, last_pose in *. rewrite !omap_app, !last_app.
  destruct ev as [msg|data|msg]; cbn; by rewrite ?Hs, ?Hp.
Qed.

(** X15: from the state of [__init__], as long as no route message has
    arrived, or no pose message has, a round of [loop] publishes nothing
    and leaves the heap alone. *)
Theorem no_round_before_route_and_pose (ds : list delivery) (h : Heap) :
  Forall (λ d, ∀ h' waypoints, d ≠ DeliverRoute h' waypoints) ds ∨
  Forall (λ d, ∀ msg, d ≠ Deliver (PoseMsg msg)) ds →
  loop_body query (foldl (deliver KDTree) init ds) h = Ok (h, None).
Proof.
  intros Hds.
  assert (ready (foldl (deliver KDTree) init ds) = false) as Hr;
    [|by unfold loop_body; rewrite Hr].
  destruct Hds as [Hds|Hds].
  - apply ready_needs_tree. revert Hds.
    induction ds as [|d ds IH] using rev_ind; intros Hds; [done|].
    apply Forall_app in Hds as [Hds Hd]. rewrite Forall_singleton in Hd.
    rewrite foldl_snoc. destruct d as [ev|h' waypoints]; cbn [deliver].
    + rewrite handle_waypoint_tree. by apply IH.
    + by destruct (Hd h' waypoints).
  - assert (pose (foldl (deliver KDTree) init ds) = None) as Hp.
    { revert Hds.
      induction ds as [|d ds IH] using rev_ind; intros Hds; [done|].
      apply Forall_app in Hds as [Hds Hd]. rewrite Forall_singleton in Hd.
      specialize (IH Hds).
      rewrite foldl_snoc. destruct d as [[msg|data|msg]|h' waypoints]; cbn.
      - by destruct (Hd msg).
      - done.
      - done.
      - unfold waypoints_cb. destruct (list_truthy _); [done|].
        by destruct (KDTree _). }
    unfold ready. rewrite Hp.
    by rewrite (bool_decide_eq_false_2 (is_Some None)) by (by intros [? ?]).
Qed.
End RunProperties.

Lemma track3_state_reachable (x : R) (s : Z) :
  reachable scan_KDTree (track3_state x s).
Proof.
  exists [DeliverRoute track3_heap track3; Deliver (PoseMsg (pose_at x 0 0));
          Deliver (TrafficMsg s)].
  reflexivity.
Qed.

Lemma reachable_tree_built_from_coordinates_witness :
  scan_KDTree [] = Raise ValueError ∧
  reachable scan_KDTree (track3_state 0 (-1)) ∧
  waypoint_tree (track3_state 0 (-1)) = Some [(0, 0); (5, 0); (9, 0)]%R ∧
  ∃ w2d, waypoints_2d (track3_state 0 (-1)) = Some w2d ∧ w2d ≠ [] ∧
         scan_KDTree w2d = Ok [(0, 0); (5, 0); (9, 0)]%R ∧
         is_Some (base_lane (track3_state 0 (-1))).
Proof.
  split; [reflexivity|]. split; [apply track3_state_reachable|].
  split; [reflexivity|].
  apply (reachable_tree_built_from_coordinates scan_KDTree ValueError
           (track3_state 0 (-1)) [(0, 0); (5, 0); (9, 0)]%R).
  - reflexivity.
  - apply track3_state_reachable.
  - reflexivity.
Defined.

Lemma reachable_round_publishes_witness :
  (∀ t w2d p, scan_KDTree w2d = Ok t →
              (0 ≤ scan_query t p < Z.of_nat (length w2d))%Z) ∧
  reachable scan_KDTree (track3_state 0 2) ∧
  ready (track3_state 0 2) = true ∧
  (∃ c w2d, waypoints_2d (track3_state 0 2) = Some w2d ∧
            get_closest_waypoint_idx scan_query (track3_state 0 2) = Ok c ∧
            (0 ≤ c < Z.of_nat (length w2d))%Z) ∧
  ∀ (h : Heap) (lane : list loc),
    base_lane (track3_state 0 2) = Some lane → lane_in_heap h lane →
    stopline_wp_idx (track3_state 0 2) = (-1)%Z ∨
    (stopline_wp_idx (track3_state 0 2) < Z.of_nat (length lane) + 2)%Z →
    ∃ h' msg, loop_body scan_query (track3_state 0 2) h = Ok (h', Some msg).
Proof.
  split; [apply scan_query_valid|]. split; [apply track3_state_reachable|].
  split; [reflexivity|].
  apply (reachable_round_publishes scan_KDTree scan_query (track3_state 0 2)).
  - apply scan_query_valid.
  - apply track3_state_reachable.
  - reflexivity.
Defined.

Lemma no_round_before_route_and_pose_witness :
  (Forall (λ d, ∀ h' waypoints, d ≠ DeliverRoute h' waypoints)
     [Deliver (PoseMsg (pose_at 0 0 0)); Deliver (TrafficMsg 2)] ∨
   Forall (λ d, ∀ msg, d ≠ Deliver (PoseMsg msg))
     [Deliver (PoseMsg (pose_at 0 0 0)); Deliver (TrafficMsg 2)]) ∧
  loop_body scan_query
    (foldl (deliver scan_KDTree) init
       [Deliver (PoseMsg (pose_at 0 0 0)); Deliver (TrafficMsg 2)]) track3_heap
  = Ok (track3_heap, None).
Proof.
  assert (Forall (λ d, ∀ h' waypoints, d ≠ DeliverRoute h' waypoints)
            [Deliver (PoseMsg (pose_at 0 0 0)); Deliver (TrafficMsg 2)]) as H
    by (repeat constructor; discriminate).
  split; [by left|].
  apply (no_round_before_route_and_pose scan_KDTree scan_query
           [Deliver (PoseMsg (pose_at 0 0 0)); Deliver (TrafficMsg 2)] track3_heap).
  by left.
Defined.

(** ** [get_waypoint_velocity] and [set_waypoint_velocity] *)

Lemma set_waypoint_velocity_waypoint_at (h : Heap) (w w' : loc) (v : R) :
  w ∈ dom (waypoint_objs h) →
  waypoint_at {| waypoint_objs := alter (assign_twist_linear_x v) w (waypoint_objs h);
                 pose_objs := pose_objs h |} w'
  = if decide (w' = w) then assign_twist_linear_x v (waypoint_at h w)
    else waypoint_at h w'.
Proof.
  intros Hw. unfold waypoint_at. cbn. rewrite lookup_total_alter.
  apply elem_of_dom in Hw as [o Ho].
  destruct (decide (w = w')) as [<-|Hne].
  - rewrite decide_True by done. by rewrite lookup_total_alt, Ho.
  - by rewrite decide_False by done.
Qed.

Lemma set_waypoint_velocity_position_of (h : Heap) (w w' : loc) (v : R) :
  position_of {| waypoint_objs := alter (assign_twist_linear_x v) w (waypoint_objs h);
                 pose_objs := pose_objs h |} w'
  = position_of h w'.
Proof.
  unfold position_of, pose_of, waypoint_at. cbn. rewrite lookup_total_alter.
  destruct (decide (w = w')) as [<-|Hne]; [|done].
  rewrite (lookup_total_alt (waypoint_objs h) w).
  by destruct (waypoint_objs h !! w).
Qed.

(** X16: after [set_waypoint_velocity] on an index of the list,
    [get_waypoint_velocity] gives the new velocity for the object at that
    index, and so at every position of the list holding the same object;
    every other object keeps its velocity and every object its pose. *)
Theorem set_then_get_waypoint_velocity (h : Heap) (waypoints : list loc)
    (waypoint : Z) (velocity : R) (w : loc) :
  py_index waypoints waypoint = Ok w →
  w ∈ dom (waypoint_objs h) →
  ∃ h',
    set_waypoint_velocity h waypoints waypoint velocity = Ok h' ∧
    get_waypoint_velocity h' w = velocity ∧
    (∀ w', get_waypoint_velocity h' w'
           = if decide (w' = w) then velocity else get_waypoint_velocity h w') ∧
    (∀ w', pose_of h' w' = pose_of h w') ∧
    dom (waypoint_objs h') = dom (waypoint_objs h).
Proof.
  intros Hidx Hw. unfold set_waypoint_velocity. rewrite Hidx. cbn.
  eexists. split; [done|].
  assert (∀ w',
    get_waypoint_velocity
      {| waypoint_objs := alter (assign_twist_linear_x velocity) w (waypoint_objs h);
         pose_objs := pose_objs h |} w'
    = if decide (w' = w) then velocity else get_waypoint_velocity h w') as Hget.
  { intros w'. unfold get_waypoint_velocity.
    rewrite set_waypoint_velocity_waypoint_at by done.
    by destruct (decide (w' = w)). }
  split; [by rewrite Hget, decide_True|]. split; [done|]. split.
  - intros w'. unfold pose_of.
    rewrite set_waypoint_velocity_waypoint_at by done. cbn.
    by destruct (decide (w' = w)) as [->|].
  - cbn. apply leibniz_equiv, dom_alter.
Qed.

Lemma set_then_get_waypoint_velocity_witness :
  py_index track3 (-1) = Ok 3%positive ∧
  3%positive ∈ dom (waypoint_objs track3_heap) ∧
  ∃ h',
    set_waypoint_velocity track3_heap track3 (-1) 4 = Ok h' ∧
    get_waypoint_velocity h' 3%positive = 4%R ∧
    (∀ w', get_waypoint_velocity h' w'
           = if decide (w' = 3%positive) then 4%R
             else get_waypoint_velocity track3_heap w') ∧
    (∀ w', pose_of h' w' = pose_of track3_heap w') ∧
    dom (waypoint_objs h') = dom (waypoint_objs track3_heap).
Proof.
  assert (3%positive ∈ dom (waypoint_objs track3_heap)) as Hd
    by (apply elem_of_dom; eexists; reflexivity).
  split; [reflexivity|]. split; [exact Hd|].
  apply (set_then_get_waypoint_velocity track3_heap track3 (-1) 4 3%positive);
    [reflexivity | exact Hd].
Defined.

(** X17: [set_waypoint_velocity] changes no position, so every
    [distance], on any list, is what it was before the call. *)
Theorem set_waypoint_velocity_keeps_distance (h h' : Heap) (waypoints : list loc)
    (waypoint : Z) (velocity : R) :
  set_waypoint_velocity h waypoints waypoint velocity = Ok h' →
  ∀ (lane : list loc) (wp1 wp2 : Z),
    distance h' lane wp1 wp2 = distance h lane wp1 wp2.
Proof.
  unfold set_waypoint_velocity.
  destruct (py_index waypoints waypoint) as [w|]; [|done]. cbn.
  intros [= <-] lane wp1 wp2. apply distance_loop_ext.
  intros w' _. apply set_waypoint_velocity_position_of.
Qed.

Lemma set_waypoint_velocity_keeps_distance_witness :
  ∃ h',
    set_waypoint_velocity track3_heap track3 1 4 = Ok h' ∧
    ∀ (lane : list loc) (wp1 wp2 : Z),
      distance h' lane wp1 wp2 = distance track3_heap lane wp1 wp2.
Proof.
  eexists. split; [reflexivity|].
  apply (set_waypoint_velocity_keeps_distance track3_heap _ track3 1 4).
  reflexivity.
Defined.

(** X18: [set_waypoint_velocity] with an index at or beyond the length of
    the list, or below minus the length, raises [IndexError]; no object is
    changed. *)
Theorem set_waypoint_velocity_out_of_range (h : Heap) (waypoints : list loc)
    (waypoint : Z) (velocity : R) :
  (Z.of_nat (length waypoints) ≤ waypoint)%Z ∨
  (waypoint < - Z.of_nat (length waypoints))%Z →
  set_waypoint_velocity h waypoints waypoint velocity = Raise IndexError.
Proof.
  intros Hout. unfold set_waypoint_velocity.
  assert (py_index waypoints waypoint = Raise IndexError) as ->; [|done].
  destruct Hout as [Hhigh|Hlow]; [by apply py_index_overflow|].
  unfold py_index. destruct (Z.ltb_spec waypoint 0); [|lia].
  by destruct (Z.ltb_spec (waypoint + Z.of_nat (length waypoints)) 0); [|lia].
Qed.

Lemma set_waypoint_velocity_out_of_range_witness :
  ((Z.of_nat (length track3) ≤ 3)%Z ∨ (3 < - Z.of_nat (length track3))%Z) ∧
  set_waypoint_velocity track3_heap track3 3 4 = Raise IndexError.
Proof.
  split; [left; simpl; lia|].
  apply (set_waypoint_velocity_out_of_range track3_heap track3 3 4).
  left; simpl; lia.
Defined.


(** ** The objects [decelerate_waypoints] creates *)

Lemma decelerate_loop_allocates (s c : Z) (waypoints : list loc) :
  ∀ (todo : list loc) (i : Z) (hk : Heap) (acc : list loc) (h' : Heap) (out : list loc),
    NoDup acc →
    (∀ p, p ∈ acc → p ∈ dom (waypoint_objs hk)) →
    decelerate_loop s c waypoints i todo hk acc = Ok (h', out) →
    NoDup out ∧
    (∀ p, p ∈ acc → p ∈ out) ∧
    ∀ l, l ∈ dom (waypoint_objs h') ↔ l ∈ dom (waypoint_objs hk) ∨ l ∈ out.
Proof.
  induction todo as [|wp todo IH]; intros i hk acc h' out Hnd Hacc Hrun.
  - cbn in Hrun. injection Hrun as <- <-.
    split; [done|]. split; [done|]. intros l. split; [by left|].
    intros [?|?]; [done | by apply Hacc].
  - cbn [decelerate_loop] in Hrun. cbv zeta in Hrun.
    destruct (distance hk waypoints i (stop_index s c)) as [dist|e]; [|done].
    cbn [mbind result_bind] in Hrun.
    set (w := {| wp_pose := wp_pose (waypoint_at hk wp);
                 twist_linear_x := py_min (stop_velocity dist) (velocity_of hk wp) |}) in Hrun.
    pose proof (new_waypoint_fresh hk w) as Hfresh.
    assert (dom (waypoint_objs (new_waypoint hk w).2)
            = {[ (new_waypoint hk w).1 ]} ∪ dom (waypoint_objs hk)) as Hdom
      by apply dom_insert_L.
    destruct (new_waypoint hk w) as [p hk'] eqn:E. cbn [fst snd] in *.
    destruct (IH (i + 1)%Z hk' (acc ++ [p]) h' out) as (Hnd' & Hsub & Hdom').
    + apply NoDup_app. split; [done|]. split; [|apply NoDup_singleton].
      intros x Hx Hx'. apply list_elem_of_singleton in Hx' as ->.
      apply Hfresh. by apply Hacc.
    + intros q Hq. rewrite Hdom.
      apply elem_of_app in Hq as [Hq|Hq].
      * apply elem_of_union_r. by apply Hacc.
      * apply elem_of_union_l. apply list_elem_of_singleton in Hq as ->.
        by apply elem_of_singleton.
    + done.
    + split; [done|]. split.
      * intros q Hq. apply Hsub. apply elem_of_app. by left.
      * intros l. rewrite Hdom', Hdom. split.
        -- intros [Hl|Hl]; [|by right].
           apply elem_of_union in Hl as [Hl|Hl]; [|by left].
           apply elem_of_singleton in Hl as ->. right.
           apply Hsub. apply elem_of_app. right. by apply list_elem_of_singleton.
        -- intros [Hl|Hl]; [|by right]. left. by apply elem_of_union_r.
Qed.

(** X19: the waypoints [decelerate_waypoints] returns are pairwise
    distinct objects, and they are exactly the objects it adds: an object
    is in the heap after the call if and only if it was there before or is
    one of those returned. *)
Theorem decelerate_waypoints_allocates (s c : Z) (h h' : Heap)
    (waypoints out : list loc) :
  decelerate_waypoints s h waypoints c = Ok (h', out) →
  NoDup out ∧
  ∀ l, l ∈ dom (waypoint_objs h') ↔ l ∈ dom (waypoint_objs h) ∨ l ∈ out.
Proof.
  intros Hrun. unfold decelerate_waypoints in Hrun.
  apply decelerate_loop_allocates in Hrun as (Hnd & _ & Hdom).
  - by split.
  - apply NoDup_nil_2.
  - intros p Hp. by apply elem_of_nil in Hp.
Qed.

Lemma decelerate_waypoints_allocates_witness :
  ∃ h' out,
    decelerate_waypoints 4 track3_heap track3 0 = Ok (h', out) ∧
    NoDup out ∧
    ∀ l, l ∈ dom (waypoint_objs h') ↔ l ∈ dom (waypoint_objs track3_heap) ∨ l ∈ out.
Proof.
  destruct track3_deceleration_profile as (h' & out & Hrun & _).
  exists h', out. split; [exact Hrun|].
  apply (decelerate_waypoints_allocates 4 0 track3_heap h' track3 out Hrun).
Defined.

(** ** The window of a planning cycle *)

Section Window.
Context {tree : Type}.
Variable query : tree → R * R → Z.

(** C5: in a planning cycle with the closest index [c] in [0, N),
    [generate_lane] works on the slice [lane[c : c + LOOKAHEAD_WPS]] of the
    base lane, taken without wrapping: the first [LOOKAHEAD_WPS] waypoints
    of the lane from [c] on, [min(LOOKAHEAD_WPS, N - c)] of them, the
    waypoint at position [i] being waypoint [c + i] of the lane, an index
    below [N].  It returns that slice itself or what
    [decelerate_waypoints] makes of it, and either way the lane returned,
    and published by the round of [loop], has the length of the slice and
    carries its poses in order. *)
Theorem generate_lane_window_is_truncated_slice (st : State tree) (h : Heap)
    (c : Z) (lane : list loc) :
  get_closest_waypoint_idx query st = Ok c →
  base_lane st = Some lane → lane_in_heap h lane →
  (0 ≤ c < Z.of_nat (length lane))%Z →
  let window := take 200 (drop (Z.to_nat c) lane) in
  Z.of_nat (length window) = Z.min LOOKAHEAD_WPS (Z.of_nat (length lane) - c) ∧
  (∀ i : nat, i < length window →
     Z.to_nat c + i < length lane ∧ window !! i = lane !! (Z.to_nat c + i)) ∧
  generate_lane query st h
  = (if ((stopline_wp_idx st =? -1)
         || (c + LOOKAHEAD_WPS <=? stopline_wp_idx st))%Z
     then Ok (h, window)
     else decelerate_waypoints (stopline_wp_idx st) h window c) ∧
  ∀ (h' : Heap) (out : list loc),
    generate_lane query st h = Ok (h', out) →
    length out = length window ∧
    pose_of h' <$> out = pose_of h <$> window ∧
    loop_body query st h
    = (if ready st then Ok (h', Some (published h' out)) else Ok (h, None)) ∧
    ((published h' out).*1 = pose_of h <$> window).
Proof.
  intros Hc Hlane Hin Hrange window.
  destruct (base_lane_waypoints_truncated lane c Hrange) as (Hw & Hlen & Hat).
  fold window in Hw. rewrite Hw in Hlen, Hat.
  split; [done|]. split; [done|].
  assert (generate_lane query st h
          = (if ((stopline_wp_idx st =? -1)
                 || (c + LOOKAHEAD_WPS <=? stopline_wp_idx st))%Z
             then Ok (h, window)
             else decelerate_waypoints (stopline_wp_idx st) h window c)) as Hgen.
  { unfold generate_lane. rewrite Hc, Hlane. cbn. by rewrite Hw. }
  split; [done|].
  intros h' out Hrun.
  assert (length out = length window ∧
          pose_of h' <$> out = pose_of h <$> window) as [Hout Hposes].
  { rewrite Hgen in Hrun. destruct (_ || _).
    - by injection Hrun as <- <-.
    - assert (window ≠ []) as Hne.
      { intros E. rewrite E in Hlen. cbn in Hlen. unfold LOOKAHEAD_WPS in Hlen. lia. }
      assert (Z.to_nat (stop_index (stopline_wp_idx st) c) < length window) as Hstop.
      { destruct (decide (Z.to_nat (stop_index (stopline_wp_idx st) c)
                          < length window)) as [|Hge]; [done|].
        rewrite decelerate_waypoints_overflow in Hrun by (done || lia). done. }
      assert (lane_in_heap h window) as Hinw.
      { unfold lane_in_heap, window. by apply Forall_take, Forall_drop. }
      destruct (decelerate_waypoints_spec (stopline_wp_idx st) c h window
                  Hinw (or_intror Hstop)) as (h1 & out1 & Hrun1 & _ & Hlen1 & _).
      destruct (decelerate_waypoints_result (stopline_wp_idx st) c h window
                  Hinw (or_intror Hstop)) as (h2 & out2 & Hrun2 & _ & _ & Hposes2).
      rewrite Hrun in Hrun1, Hrun2.
      injection Hrun1 as <- <-. by injection Hrun2 as <- <-. }
  split; [done|]. split; [done|]. split.
  - unfold loop_body, publish_waypoint. rewrite Hc, Hrun. cbn.
    by destruct (ready st).
  - unfold published. by rewrite <- list_fmap_compose.
Qed.
End Window.

Lemma generate_lane_window_is_truncated_slice_witness :
  get_closest_waypoint_idx scan_query (track3_state 0 (-1)) = Ok 0%Z ∧
  base_lane (track3_state 0 (-1)) = Some track3 ∧
  lane_in_heap track3_heap track3 ∧
  (0 ≤ 0 < Z.of_nat (length track3))%Z ∧
  let window := take 200 (drop (Z.to_nat 0) track3) in
  Z.of_nat (length window) = Z.min LOOKAHEAD_WPS (Z.of_nat (length track3) - 0) ∧
  (∀ i : nat, i < length window →
     Z.to_nat 0 + i < length track3 ∧ window !! i = track3 !! (Z.to_nat 0 + i)) ∧
  generate_lane scan_query (track3_state 0 (-1)) track3_heap
  = (if ((stopline_wp_idx (track3_state 0 (-1)) =? -1)
         || (0 + LOOKAHEAD_WPS <=? stopline_wp_idx (track3_state 0 (-1))))%Z
     then Ok (track3_heap, window)
     else decelerate_waypoints (stopline_wp_idx (track3_state 0 (-1)))
            track3_heap window 0) ∧
  ∀ (h' : Heap) (out : list loc),
    generate_lane scan_query (track3_state 0 (-1)) track3_heap = Ok (h', out) →
    length out = length window ∧
    pose_of h' <$> out = pose_of track3_heap <$> window ∧
    loop_body scan_query (track3_state 0 (-1)) track3_heap
    = (if ready (track3_state 0 (-1))
       then Ok (h', Some (published h' out)) else Ok (track3_heap, None)) ∧
    ((published h' out).*1 = pose_of track3_heap <$> window).
Proof.
  split; [apply track3_closest_at_start|]. split; [reflexivity|].
  split; [apply track3_in_heap|]. split; [simpl; lia|].
  apply (generate_lane_window_is_truncated_slice scan_query (track3_state 0 (-1))
           track3_heap 0 track3).
  - apply track3_closest_at_start.
  - reflexivity.
  - apply track3_in_heap.
  - simpl; lia.
Defined.

(** ** An empty route *)

Section EmptyRoute.
Context {tree : Type}.
Variable KDTree : list (R * R) → result tree.
Variable query : tree → R * R → Z.


End EmptyRoute.



(** ** A constructor that fails on a route *)

Lemma deliver_keeps_coordinates {tree : Type}
    (KDTree : list (R * R) → result tree) (st : State tree) (d : delivery) :
  list_truthy (waypoints_2d st) = true →
  waypoints_2d (deliver KDTree st d) = waypoints_2d st ∧
  waypoint_tree (deliver KDTree st d) = waypoint_tree st.
Proof.
  intros Hw. destruct d as [ev|h waypoints]; cbn [deliver].
  - by rewrite handle_waypoints_2d, handle_waypoint_tree.
  - by rewrite waypoints_cb_index_kept.
Qed.

(** X14: when the constructor raises on a non-empty route while the node
    has no index, the coordinate list of that route is stored all the same,
    and from then on no constructor is called: whatever messages arrive,
    further routes included, and whatever the constructor would answer
    them, the coordinate list stays that of the failed route, no tree is
    stored and the guard of [loop] stays false. *)
Theorem failed_construction_is_not_retried {tree : Type}
    (KDTree : list (R * R) → result tree) (e : exn) (st : State tree)
    (h : Heap) (waypoints : list loc) :
  waypoints ≠ [] →
  KDTree (coordinates_2d h waypoints) = Raise e →
  list_truthy (waypoints_2d st) = false →
  waypoint_tree st = None →
  ∀ (KDTree' : list (R * R) → result tree) (ds : list delivery),
    waypoints_2d (foldl (deliver KDTree') (waypoints_cb KDTree st h waypoints).1 ds)
    = Some (coordinates_2d h waypoints) ∧
    waypoint_tree (foldl (deliver KDTree') (waypoints_cb KDTree st h waypoints).1 ds)
    = None ∧
    ready (foldl (deliver KDTree') (waypoints_cb KDTree st h waypoints).1 ds) = false.
Proof.
  intros Hne HK Hw Ht KDTree' ds.
  assert (waypoints_2d (waypoints_cb KDTree st h waypoints).1
          = Some (coordinates_2d h waypoints) ∧
          waypoint_tree (waypoints_cb KDTree st h waypoints).1 = None) as [H2d Hnone].
  { unfold waypoints_cb. by rewrite Hw, HK. }
  assert (waypoints_2d
            (foldl (deliver KDTree') (waypoints_cb KDTree st h waypoints).1 ds)
          = Some (coordinates_2d h waypoints) ∧
          waypoint_tree
            (foldl (deliver KDTree') (waypoints_cb KDTree st h waypoints).1 ds)
          = None) as [Hk Hn].
  { induction ds as [|d ds IH] using rev_ind; [done|].
    destruct IH as [IHw IHt]. rewrite foldl_snoc.
    destruct (deliver_keeps_coordinates KDTree'
                (foldl (deliver KDTree') (waypoints_cb KDTree st h waypoints).1 ds) d)
      as [-> ->]; [|done].
    rewrite IHw. destruct waypoints; done. }
  split; [done|]. split; [done|]. by apply ready_needs_tree.
Qed.

Lemma failed_construction_is_not_retried_witness :
  track3 ≠ [] ∧
  failing_KDTree (coordinates_2d track3_heap track3) = Raise ValueError ∧
  list_truthy (waypoints_2d (@init (list (R * R)))) = false ∧
  waypoint_tree (@init (list (R * R))) = None ∧
  ∀ (KDTree' : list (R * R) → result (list (R * R))) (ds : list delivery),
    waypoints_2d (foldl (deliver KDTree')
                    (waypoints_cb failing_KDTree init track3_heap track3).1 ds)
    = Some (coordinates_2d track3_heap track3) ∧
    waypoint_tree (foldl (deliver KDTree')
                     (waypoints_cb failing_KDTree init track3_heap track3).1 ds)
    = None ∧
    ready (foldl (deliver KDTree')
             (waypoints_cb failing_KDTree init track3_heap track3).1 ds) = false.
Proof.
  split; [discriminate|]. split; [reflexivity|]. split; [reflexivity|].
  split; [reflexivity|].
  apply (failed_construction_is_not_retried failing_KDTree ValueError init
           track3_heap track3); [discriminate | reflexivity..].
Defined.

(** After the failed load, route messages handled with the constructor by
    linear scan, which accepts [track3], still leave the node without a
    tree. *)
Lemma failed_construction_then_working_constructor :
  waypoint_tree
    (foldl (deliver scan_KDTree)
       (waypoints_cb failing_KDTree init track3_heap track3).1
       [DeliverRoute track3_heap track3; Deliver (PoseMsg (pose_at 0 0 0))])
  = None ∧
  waypoint_tree (waypoints_cb scan_KDTree init track3_heap track3).1
  = Some [(0, 0); (5, 0); (9, 0)]%R.
Proof. split; reflexivity. Qed.
